(** * FlashCards server: record sanitization, merge rules and the write chain

    A shallow embedding of [src/server.js]: the JSON values the handlers
    receive, [sanitizeCard], the three mutators handed to [enqueueWrite],
    [safeRead]/[safeWrite] over a model of the store file, [requireToken],
    the four request handlers, and the promise chain [writeChain]. *)

From stdpp Require Import gmap strings list fin_maps pretty.
From Stdlib Require Import NArith ZArith Ascii.

#[local] Set Warnings "-register-all".
#[local] Open Scope N_scope.

(** ** JavaScript strings

    A JavaScript string is a sequence of UTF-16 code units.  Property names
    are kept as [string]; every name the server touches is ASCII. *)

Definition jsstring := list N.

Definition lit (s : string) : jsstring :=
  List.map N_of_ascii (String.list_ascii_of_string s).

(** [\s] of a regular expression and the characters removed by
    [String.prototype.trim] are the same set: WhiteSpace and LineTerminator. *)
Definition is_ws (c : N) : bool :=
  (c =? 9) || (c =? 10) || (c =? 11) || (c =? 12) || (c =? 13) || (c =? 32)
  || (c =? 160) || (c =? 5760) || ((8192 <=? c) && (c <=? 8202))
  || (c =? 8232) || (c =? 8233) || (c =? 8239) || (c =? 8287)
  || (c =? 12288) || (c =? 65279).

(** The code unit of ['=']. *)
Definition is_eq_sign (c : N) : bool := c =? 61.

Fixpoint drop_while (p : N -> bool) (s : jsstring) : jsstring :=
  match s with
  | [] => []
  | c :: s' => if p c then drop_while p s' else s
  end.

(** [s.replace(/^=+\s*/, "")]: the pattern is anchored at the start of the
    input and needs at least one ['=']; both quantifiers are greedy. *)
Definition replace_leading_eq (s : jsstring) : jsstring :=
  match s with
  | c :: _ => if is_eq_sign c then drop_while is_ws (drop_while is_eq_sign s) else s
  | [] => []
  end.

(** [s.trim()] *)
Definition trim (s : jsstring) : jsstring :=
  rev (drop_while is_ws (rev (drop_while is_ws s))).

(** [s.replace(/^=+\s*/, "").trim()], as applied to [front] and [back]. *)
Definition normalizeText (s : jsstring) : jsstring :=
  trim (replace_leading_eq s).

(** In the words of the specification: a leading run of ['='] and the
    surrounding whitespace are stripped.  To be compared with
    [normalizeText]. *)
Definition strip_eq_run_and_space (s : jsstring) : jsstring :=
  trim (drop_while is_eq_sign s).

(** [parts.join(sep)] on an array of strings. *)
Fixpoint join (sep : jsstring) (parts : list jsstring) : jsstring :=
  match parts with
  | [] => []
  | [p] => p
  | p :: rest => p ++ sep ++ join sep rest
  end.

(** [s.startsWith(p)] *)
Fixpoint startsWith (p s : jsstring) : bool :=
  match p, s with
  | [], _ => true
  | a :: p', b :: s' => (a =? b) && startsWith p' s'
  | _ :: _, [] => false
  end.

(** ** JavaScript numbers

    Numbers are IEEE doubles.  The server never computes with them: it only
    converts ([Number(x)], [String(x)]), tests truthiness and serialises.
    These primitives of the language are an interface of the development. *)

Class JsNumber := {
  (** doubles, with NaN and zero each represented once: no operation used
      by the server tells [-0] from [+0] *)
  num : Type;
  num_eq_dec :: EqDecision num;
  (** [Number(s)] on a string *)
  num_of_string : jsstring -> num;
  (** [String(n)] *)
  num_to_string : num -> jsstring;
  (** [!!n]: neither zero nor NaN *)
  num_truthy : num -> bool;
  (** finite numbers are the ones [JSON.stringify] writes as numbers *)
  num_finite : num -> bool;
  num_nan : num;
  num_0 : num;
  num_1 : num;
  (** the literal [2.5] *)
  num_2_5 : num
}.

(** Exceptions raised by the modelled code. *)
Inductive exn := TypeError | MutatorError | IOError.

(** The completion of a call: a value, or a thrown exception. *)
Inductive completion (A : Type) : Type :=
| Normal (a : A)
| Throw (e : exn).
Arguments Normal {A} a.
Arguments Throw {A} e.

(** Sequencing: an exception ends the evaluation. *)
#[global] Instance completion_ret : MRet completion := @Normal.
#[global] Instance completion_bind : MBind completion :=
  fun A B f m => match m with Normal a => f a | Throw e => Throw e end.
#[global] Instance completion_fmap : FMap completion :=
  fun A B f m => match m with Normal a => Normal (f a) | Throw e => Throw e end.

Section Server.
Context `{JsNumber}.

(** ** JSON values, as produced by [express.json()] and [JSON.parse] *)

Inductive JVal : Type :=
| JNull
| JBool (b : bool)
| JNum (n : num)
| JStr (s : jsstring)
| JArr (l : list JVal)
| JObj (m : gmap string JVal).

(** A stored card is a plain object. *)
Abbreviation obj := (gmap string JVal).

(** A JavaScript value that may be [undefined]. *)
Abbreviation jsval := (option JVal).

(** Own enumerable properties: what a property read by name sees (for the
    names used by the server, none of which lives on a prototype) and what
    object spread copies. *)
Definition own_props (v : JVal) : obj :=
  match v with
  | JObj m => m
  | JArr l => list_to_map (imap (fun i x => (pretty i, x)) l)
  | JStr s => list_to_map (imap (fun i c => (pretty i, JStr [c])) s)
  | _ => ∅
  end.

(** [v.k] for a non-null [v]. *)
Definition prop (v : JVal) (k : string) : jsval := own_props v !! k.

(** [String(v)].  An array is joined with [","], its elements converted
    in turn, [null] as the empty string.  An object is converted by its
    [toString] method: a parsed JSON object inherits the one of
    [Object.prototype] unless it has a property of that name of its own,
    which is never a function; [valueOf] then returns the object itself
    (or is no function either) and the conversion throws. *)
Fixpoint ToString (v : JVal) : completion jsstring :=
  match v with
  | JNull => Normal (lit "null")
  | JBool true => Normal (lit "true")
  | JBool false => Normal (lit "false")
  | JNum n => Normal (num_to_string n)
  | JStr s => Normal s
  | JArr l =>
      join (lit ",")
        <$> mapM (fun x => match x with JNull => Normal [] | _ => ToString x end) l
  | JObj m =>
      match m !! "toString" with
      | Some _ => Throw TypeError
      | None => Normal (lit "[object Object]")
      end
  end.

Definition ToStringU (v : jsval) : completion jsstring :=
  match v with
  | None => Normal (lit "undefined")
  | Some x => ToString x
  end.

(** [Number(v)]: an array or an object is converted to a string first,
    [valueOf] giving no primitive. *)
Definition ToNumber (v : jsval) : completion num :=
  match v with
  | None => Normal num_nan
  | Some JNull => Normal num_0
  | Some (JBool true) => Normal num_1
  | Some (JBool false) => Normal num_0
  | Some (JNum n) => Normal n
  | Some x => num_of_string <$> ToString x
  end.

(** [!!v] *)
Definition truthy (v : jsval) : bool :=
  match v with
  | None | Some JNull => false
  | Some (JBool b) => b
  | Some (JNum n) => num_truthy n
  | Some (JStr s) => negb (bool_decide (s = []))
  | Some (JArr _) | Some (JObj _) => true
  end.

(** [a ?? b] *)
Definition nullish_or (a b : jsval) : jsval :=
  match a with
  | None | Some JNull => b
  | _ => a
  end.

(** [a || b] *)
Definition or_else (a b : jsval) : jsval :=
  if truthy a then a else b.

(** [a || b] where [b] is defined *)
Definition or_default (a : jsval) (b : JVal) : JVal :=
  default b (or_else a (Some b)).

(** The text of [back] (also used by the PUT handler):
    [Array.isArray(x) ? x.map(v => String(v)).join(" / ")
                      : String(x).replace(/^=+\s*/, "").trim()] *)
Definition backText (x : jsval) : completion jsstring :=
  match x with
  | Some (JArr l) => join (lit " / ") <$> mapM ToString l
  | _ => normalizeText <$> ToStringU x
  end.

(** [c.front ?? c.portuguese ?? ""] *)
Definition frontIn (c : JVal) : jsval :=
  nullish_or (nullish_or (prop c "front") (prop c "portuguese")) (Some (JStr [])).

(** [c.back ?? c.translation ?? ""] *)
Definition backIn (c : JVal) : jsval :=
  nullish_or (nullish_or (prop c "back") (prop c "translation")) (Some (JStr [])).

(** [c.ease ?? 2.5], [c.interval ?? 0], [c.lapses ?? 0] *)
Definition easeIn (c : JVal) : jsval := nullish_or (prop c "ease") (Some (JNum num_2_5)).
Definition intervalIn (c : JVal) : jsval := nullish_or (prop c "interval") (Some (JNum num_0)).
Definition lapsesIn (c : JVal) : jsval := nullish_or (prop c "lapses") (Some (JNum num_0)).

(** The object literal returned by [sanitizeCard], once its three numbers
    are converted. *)
Definition new_card (now fresh : jsstring) (c : JVal) (front back : jsstring)
    (ease interval lapses : num) : obj :=
  <["id" := or_default (prop c "id") (JStr fresh)]> (
  <["front" := JStr front]> (
  <["back" := JStr back]> (
  <["lang_from" := or_default (prop c "lang_from") (JStr (lit "pt"))]> (
  <["lang_to" := or_default (prop c "lang_to") (JStr (lit "de"))]> (
  <["tags" := match prop c "tags" with
              | Some (JArr l) => JArr (take 10 l)
              | _ => JArr []
              end]> (
  <["ease" := JNum ease]> (
  <["interval" := JNum interval]> (
  <["next_review" := or_default (prop c "next_review") (JStr now)]> (
  <["lapses" := JNum lapses]> (
  <["created_at" := or_default (prop c "created_at") (JStr now)]> ∅)))))))))).

(** [sanitizeCard(c)].  [now] is [new Date().toISOString()] and [fresh] the
    value [nanoid()] would return in this call.  Reading a property of
    [null] throws, and so can each [String(...)] and [Number(...)], in the
    order of the source: [front], [back], the test for empty texts, then
    [ease], [interval] and [lapses].  [None] is the [null] the function
    returns. *)
Definition sanitizeCard (now fresh : jsstring) (c : JVal) : completion (option obj) :=
  match c with
  | JNull => Throw TypeError
  | _ =>
      front ← normalizeText <$> ToStringU (frontIn c);
      back ← backText (backIn c);
      if bool_decide (front = []) || bool_decide (back = []) then Normal None
      else
        ease ← ToNumber (easeIn c);
        interval ← ToNumber (intervalIn c);
        lapses ← ToNumber (lapsesIn c);
        Normal (Some (new_card now fresh c front back ease interval lapses))
  end.

(** ** The mutator of [POST /api/cards] *)

(** Key equality of a [Map] (SameValueZero).  Primitives are compared by
    value.  Arrays and objects are compared by reference, and the values
    compared here never share one: each comes out of its own [JSON.parse]. *)
Definition same_value_zero (a b : jsval) : bool :=
  match a, b with
  | None, None => true
  | Some JNull, Some JNull => true
  | Some (JBool x), Some (JBool y) => bool_decide (x = y)
  | Some (JNum x), Some (JNum y) => bool_decide (x = y)
  | Some (JStr x), Some (JStr y) => bool_decide (x = y)
  | _, _ => false
  end.

(** A [Map] from card ids to indices, in insertion order. *)
Definition jsmap := list (jsval * nat).

(** [m.set(k, i)]: an existing key keeps its place and gets the new value. *)
Fixpoint map_set (m : jsmap) (k : jsval) (i : nat) : jsmap :=
  match m with
  | [] => [(k, i)]
  | (k', j) :: m' =>
      if same_value_zero k' k then (k', i) :: m' else (k', j) :: map_set m' k i
  end.

(** [m.get(k)]; [None] exactly when [m.has(k)] is false. *)
Fixpoint map_get (m : jsmap) (k : jsval) : option nat :=
  match m with
  | [] => None
  | (k', j) :: m' => if same_value_zero k' k then Some j else map_get m' k
  end.

(** [new Map(entries)] *)
Definition new_Map (entries : list (jsval * nat)) : jsmap :=
  fold_left (fun m e => map_set m e.1 e.2) entries [].

(** [new Map(cards.map((x,i) => [x.id, i]))] *)
Definition index_by_id (cards : list obj) : jsmap :=
  new_Map (imap (fun i x => (x !! "id", i)) cards).

(** What [idx.get(k)] answers, read off the cards: a card with that id,
    none with it further right; or no card with that id at all. *)
Definition index_answer (cards : list obj) (k : jsval) (r : option nat) : Prop :=
  match r with
  | Some i =>
      (exists c, cards !! i = Some c /\ same_value_zero (c !! "id") k = true)
      /\ forall j c, (i < j)%nat -> cards !! j = Some c ->
                     same_value_zero (c !! "id") k = false
  | None =>
      forall j c, cards !! j = Some c -> same_value_zero (c !! "id") k = false
  end.

(** [{ ...a, ...b }]: the properties of [b] win. *)
Definition spread (a b : obj) : obj := b ∪ a.

(** One turn of the loop over [sanitized].  The index found is below the
    length the array had when [idx] was built, so the write is in range. *)
Definition upsert_step (idx : jsmap) (cards : list obj) (n : obj) : list obj :=
  match map_get idx (n !! "id") with
  | Some i => <[i := spread (default ∅ (cards !! i)) n]> cards
  | None => cards ++ [n]
  end.

Definition upsert_mutator (sanitized : list obj) (cards : list obj) : list obj :=
  fold_left (upsert_step (index_by_id cards)) sanitized cards.

(** ** The patch and the mutator of [PUT /api/cards/:id] *)

(** [req.body || {}] with [front] and [back] re-normalized when present,
    as the own properties the spread will copy.  [String(...)] may throw,
    on [front] first. *)
Definition normalizePatch (body : JVal) : completion obj :=
  let patch := or_default (Some body) (JObj ∅) in
  let p0 := own_props patch in
  p1 ← match p0 !! "front" with
       | Some v => s ← ToString v; Normal (<["front" := JStr (normalizeText s)]> p0)
       | None => Normal p0
       end;
  match p1 !! "back" with
  | Some v => s ← backText (Some v); Normal (<["back" := JStr s]> p1)
  | None => Normal p1
  end.

(** [c.id === id] for the string [id] *)
Definition id_is (id : jsstring) (c : obj) : bool :=
  match c !! "id" with
  | Some (JStr s) => bool_decide (s = id)
  | _ => false
  end.

(** [cards.findIndex(p)], [None] for [-1] *)
Fixpoint findIndex (p : obj -> bool) (cards : list obj) : option nat :=
  match cards with
  | [] => None
  | c :: rest => if p c then Some 0%nat else S <$> findIndex p rest
  end.

(** [cards[i] = { ...cards[i], ...patch }] *)
Definition mergePatch (existing patch : obj) : obj := spread existing patch.

(** The mutator, paired with the value it leaves in [updated]. *)
Definition put_mutator (id : jsstring) (patch : obj) (cards : list obj)
  : list obj * bool :=
  match findIndex (id_is id) cards with
  | None => (cards, false)
  | Some i => (<[i := mergePatch (default ∅ (cards !! i)) patch]> cards, true)
  end.

(** ** The mutator of [DELETE /api/cards/:id], paired with [removed] *)
Definition delete_mutator (id : jsstring) (cards : list obj) : list obj * bool :=
  let next := List.filter (fun c => negb (id_is id c)) cards in
  (next, negb (length next =? length cards)%nat).

(** ** The store file *)

(** What [JSON.parse(JSON.stringify(v))] makes of a value held in memory:
    a number that is not finite is written as [null]. *)
Fixpoint json_roundtrip (v : JVal) : JVal :=
  match v with
  | JNum n => if num_finite n then JNum n else JNull
  | JArr l => JArr (List.map json_roundtrip l)
  | JObj m => JObj (json_roundtrip <$> m)
  | _ => v
  end.

Definition json_cards (cards : list obj) : list obj :=
  (fun c : obj => json_roundtrip <$> c) <$> cards.

(** [data/cards.json] as [safeRead] sees it: [Corrupt] when reading or
    parsing it throws, [Stored cards] when it parses to the array [cards].
    The server only ever writes an array of objects to it; a file that
    parses to anything else is outside the model. *)
Inductive Disk :=
| Corrupt
| Stored (cards : list obj).

Inductive logline :=
| read_cards_parse_failed
| write_failed (e : exn).

Record world := World { disk : Disk; console : list logline }.

Definition log (l : logline) (w : world) : world :=
  World (disk w) (console w ++ [l]).

Definition write_file (cards : list obj) (w : world) : world :=
  World (Stored cards) (console w).

(** [safeRead()]: the [catch] branch logs and rewrites the file as
    ["[]\n"]; [heal_ok] tells whether that write succeeds.  When it does
    the empty array is returned; when it throws, nothing catches the
    exception and the file is as it was. *)
Definition safeRead (heal_ok : bool) (w : world) : completion (list obj) * world :=
  match disk w with
  | Stored cards => (Normal cards, w)
  | Corrupt =>
      let w1 := log read_cards_parse_failed w in
      if heal_ok then (Normal [], write_file [] w1) else (Throw IOError, w1)
  end.

(** [safeWrite(cards)]: the temporary file is written and renamed over the
    store file; [save_ok] tells whether both steps succeed.  When one of
    them throws, the store file is as it was. *)
Definition safeWrite (save_ok : bool) (cards : list obj) (w : world)
  : completion unit * world :=
  if save_ok then (Normal tt, write_file (json_cards cards) w)
  else (Throw IOError, w).

(** [await enqueueWrite(mutator)] on an idle chain, with nothing else
    running until the returned promise settles.  The mutator is paired with
    the value it assigns to the variable it closes over; [None] when the
    unit threw before the assignment.  The [catch] at the end of the unit
    logs and swallows the exception, whether it comes from the read, the
    mutator or the save, so the caller always resumes. *)
Definition enqueueWrite {A} (save_ok heal_ok : bool)
    (mutator : list obj -> completion (list obj * A)) (w : world)
  : option A * world :=
  match safeRead heal_ok w with
  | (Throw e, w1) => (None, log (write_failed e) w1)
  | (Normal current, w1) =>
      match mutator current with
      | Throw e => (None, log (write_failed e) w1)
      | Normal (next, a) =>
          match safeWrite save_ok next w1 with
          | (Normal _, w2) => (Some a, w2)
          | (Throw e, w2) => (Some a, log (write_failed e) w2)
          end
      end
  end.

(** ** Authorization *)

(** [requireToken(req, res)]: [None] when it answers 401 and returns
    [null], otherwise the token. *)
Definition requireToken (WRITE_TOKEN : jsstring) (authorization : option jsstring)
  : option jsstring :=
  let auth := default [] authorization in
  let token := if startsWith (lit "Bearer ") auth then drop 7 auth else [] in
  if bool_decide (WRITE_TOKEN = []) || negb (bool_decide (token = WRITE_TOKEN))
  then None
  else Some token.

(** [process.env.WRITE_TOKEN || ""] *)
Definition write_token_of_env (v : option jsstring) : jsstring := default [] v.

(** ** Request handlers *)

Inductive response :=
| RCards (cards : list obj) (count : nat)      (* 200 { cards, count } *)
| RAdded (added total : nat)                   (* 200 { ok, added, total } *)
| ROkId (id : jsstring)                        (* 200 { ok, id } *)
| RError (status : nat) (error : string).      (* status { error } *)

(** [GET /api/cards].  An exception of [safeRead] is the handler's. *)
Definition get_cards (heal_ok : bool) (w : world) : completion response * world :=
  match safeRead heal_ok w with
  | (Normal cards, w1) => (Normal (RCards cards (length cards)), w1)
  | (Throw e, w1) => (Throw e, w1)
  end.

(** [incoming.map(sanitizeCard)]: call [i] reads the clock and the id
    generator at [i]; an exception in one call ends the whole map. *)
Fixpoint sanitize_from (clock nanoid : nat -> jsstring) (i : nat) (incoming : list JVal)
  : completion (list (option obj)) :=
  match incoming with
  | [] => Normal []
  | c :: rest =>
      match sanitizeCard (clock i) (nanoid i) c with
      | Throw e => Throw e
      | Normal r =>
          match sanitize_from clock nanoid (S i) rest with
          | Throw e => Throw e
          | Normal rs => Normal (r :: rs)
          end
      end
  end.

(** [POST /api/cards].  An exception thrown while the items are sanitized
    leaves the world as it is.  [heal_ok] is for the read inside the unit,
    [reheal_ok] for the read after it. *)
Definition post_cards (WRITE_TOKEN : jsstring) (clock nanoid : nat -> jsstring)
    (save_ok heal_ok reheal_ok : bool) (authorization : option jsstring)
    (body : JVal) (w : world)
  : completion response * world :=
  match requireToken WRITE_TOKEN authorization with
  | None => (Normal (RError 401 "unauthorized"), w)
  | Some _ =>
      let incoming := match body with JArr l => l | _ => [body] end in
      match sanitize_from clock nanoid 0 incoming with
      | Throw e => (Throw e, w)
      | Normal results =>
          let sanitized := omap id results in
          match sanitized with
          | [] => (Normal (RError 400 "invalid_payload"), w)
          | _ =>
              let '(_, w1) :=
                enqueueWrite save_ok heal_ok
                  (fun cards => Normal (upsert_mutator sanitized cards, tt)) w in
              match safeRead reheal_ok w1 with
              | (Normal after, w2) =>
                  (Normal (RAdded (length sanitized) (length after)), w2)
              | (Throw e, w2) => (Throw e, w2)
              end
          end
      end
  end.

(** [PUT /api/cards/:id].  An exception thrown while the patch is
    normalized leaves the world as it is. *)
Definition put_card (WRITE_TOKEN : jsstring) (save_ok heal_ok : bool)
    (authorization : option jsstring) (id : jsstring) (body : JVal) (w : world)
  : completion response * world :=
  match requireToken WRITE_TOKEN authorization with
  | None => (Normal (RError 401 "unauthorized"), w)
  | Some _ =>
      match normalizePatch body with
      | Throw e => (Throw e, w)
      | Normal patch =>
          let '(updated, w1) :=
            enqueueWrite save_ok heal_ok
              (fun cards => Normal (put_mutator id patch cards)) w in
          if default false updated then (Normal (ROkId id), w1)
          else (Normal (RError 404 "not_found"), w1)
      end
  end.

(** [DELETE /api/cards/:id]: nothing in it throws. *)
Definition delete_card (WRITE_TOKEN : jsstring) (save_ok heal_ok : bool)
    (authorization : option jsstring) (id : jsstring) (w : world)
  : response * world :=
  match requireToken WRITE_TOKEN authorization with
  | None => (RError 401 "unauthorized", w)
  | Some _ =>
      let '(removed, w1) :=
        enqueueWrite save_ok heal_ok (fun cards => Normal (delete_mutator id cards)) w in
      if default false removed then (ROkId id, w1)
      else (RError 404 "not_found", w1)
  end.

(** ** The write chain

    [writeChain = writeChain.then(unit).catch(log)]: the callback of a unit
    is registered on the promise its predecessor left in [writeChain], so
    it is called only once that promise is resolved; the promise of the
    first unit hangs on [Promise.resolve()].  The [catch] turns a rejection
    into a resolved promise.  Each [await] inside a unit hands control back
    to the event loop, where other handlers may enqueue or read. *)

Inductive stage :=
| Queued                              (* the callback has not been called *)
| Loaded (current : list obj)         (* [safeRead] has resolved *)
| Applied (next : list obj)           (* the mutator has resolved *)
| TmpWritten (next : list obj)        (* [fs.writeFile(tmp, json)] has resolved *)
| Settled (failure : option exn).     (* the promise after [catch] is resolved *)

(** [ALoad]: the callback of the unit was called and called [safeRead]. *)
Inductive action := ALoad | AApply | AWriteTmp | ARename | AFail.

Record chain := Chain {
  ch_world : world;
  ch_units : list ((list obj -> completion (list obj)) * stage);
  (** what the units did, oldest first: unit index and action *)
  ch_trace : list (nat * action);
  (** the calls of [safeRead] made by handlers, outside the chain, that
      found the file corrupt and whose recovery write has not settled *)
  ch_recovering : nat
}.

Definition stage_of (c : chain) (k : nat) : option stage :=
  snd <$> ch_units c !! k.

Definition is_settled (st : stage) : bool :=
  match st with Settled _ => true | _ => false end.

Definition in_flight (st : stage) : bool :=
  match st with Loaded _ | Applied _ | TmpWritten _ => true | _ => false end.

(** The promise unit [k] was chained on is resolved. *)
Definition ready (c : chain) (k : nat) : Prop :=
  match k with
  | O => True
  | S j => exists o, stage_of c j = Some (Settled o)
  end.

Definition set_stage (k : nat) (st : stage) (c : chain) (w : world) (a : action) : chain :=
  Chain w (alter (fun u => (u.1, st)) k (ch_units c)) (ch_trace c ++ [(k, a)])
        (ch_recovering c).

(** The steps of the units themselves.  The read of a unit is one step:
    between its two awaits no other unit runs, and a handler reading in
    between sees and does what it would just before. *)
Inductive unit_step (c : chain) : chain -> Prop :=
| step_load k m heal_ok current w' :
    ch_units c !! k = Some (m, Queued) -> ready c k ->
    safeRead heal_ok (ch_world c) = (Normal current, w') ->
    unit_step c (set_stage k (Loaded current) c w' ALoad)
| step_load_throws k m heal_ok e w' :
    ch_units c !! k = Some (m, Queued) -> ready c k ->
    safeRead heal_ok (ch_world c) = (Throw e, w') ->
    unit_step c (set_stage k (Settled (Some e)) c (log (write_failed e) w') ALoad)
| step_apply k m current next :
    ch_units c !! k = Some (m, Loaded current) -> m current = Normal next ->
    unit_step c (set_stage k (Applied next) c (ch_world c) AApply)
| step_apply_throws k m current e :
    ch_units c !! k = Some (m, Loaded current) -> m current = Throw e ->
    unit_step c (set_stage k (Settled (Some e)) c
                   (log (write_failed e) (ch_world c)) AFail)
| step_write_tmp k m next :
    ch_units c !! k = Some (m, Applied next) ->
    unit_step c (set_stage k (TmpWritten next) c (ch_world c) AWriteTmp)
| step_write_tmp_fails k m next :
    ch_units c !! k = Some (m, Applied next) ->
    unit_step c (set_stage k (Settled (Some IOError)) c
                   (log (write_failed IOError) (ch_world c)) AFail)
| step_rename k m next :
    ch_units c !! k = Some (m, TmpWritten next) ->
    unit_step c (set_stage k (Settled None) c
                   (write_file (json_cards next) (ch_world c)) ARename)
| step_rename_fails k m next :
    ch_units c !! k = Some (m, TmpWritten next) ->
    unit_step c (set_stage k (Settled (Some IOError)) c
                   (log (write_failed IOError) (ch_world c)) AFail).

(** Everything that can happen between two turns of the event loop: a unit
    moves, a handler calls [enqueueWrite], or a [safeRead] called by a
    handler moves.  Such a read of a file that parses changes nothing.
    When the file does not parse the read logs and issues its recovery
    write, which lands, or fails, at some later turn: the chain does not
    order it with the units. *)
Inductive chain_step (c : chain) : chain -> Prop :=
| step_unit c' : unit_step c c' -> chain_step c c'
| step_enqueue m :
    chain_step c (Chain (ch_world c) (ch_units c ++ [(m, Queued)]) (ch_trace c)
                        (ch_recovering c))
| step_reader_finds_corrupt :
    disk (ch_world c) = Corrupt ->
    chain_step c (Chain (log read_cards_parse_failed (ch_world c)) (ch_units c)
                        (ch_trace c) (S (ch_recovering c)))
| step_recovery_write n :
    ch_recovering c = S n ->
    chain_step c (Chain (write_file [] (ch_world c)) (ch_units c) (ch_trace c) n)
| step_recovery_write_fails n :
    ch_recovering c = S n ->
    chain_step c (Chain (ch_world c) (ch_units c) (ch_trace c) n).

(** [let writeChain = Promise.resolve()] *)
Definition chain_init (w : world) : chain := Chain w [] [] 0.

Inductive reachable (w : world) : chain -> Prop :=
| reach_init : reachable w (chain_init w)
| reach_step c c' : reachable w c -> chain_step c c' -> reachable w c'.

(** Steps each unit still has to take before its promise is resolved. *)
Definition stage_work (st : stage) : nat :=
  match st with
  | Queued => 4
  | Loaded _ => 3
  | Applied _ => 2
  | TmpWritten _ => 1
  | Settled _ => 0
  end.

Definition chain_work (c : chain) : nat :=
  foldr (fun u n => (stage_work u.2 + n)%nat) 0%nat (ch_units c).

(** A card whose [front] and [back] are non-empty strings. *)
Definition texts_nonempty (c : obj) : Prop :=
  exists f b, c !! "front" = Some (JStr f) /\ f <> []
              /\ c !! "back" = Some (JStr b) /\ b <> [].

(** The units act in the order of their indices: no action of a unit
    comes after an action of a later unit. *)
Definition trace_fifo (tr : list (nat * action)) : Prop :=
  forall i j e1 e2, (i < j)%nat -> tr !! i = Some e1 -> tr !! j = Some e2 ->
                    (e1.1 <= e2.1)%nat.

(** The shape of the chain around a frontier [f]: the units before it are
    settled, the units after it have not started, the trace has only
    reached [f], every unit that left [Queued] has loaded, and every
    failure is on the console. *)
Record chain_inv (c : chain) (f : nat) : Prop := ChainInv {
  inv_bound : (f <= length (ch_units c))%nat;
  inv_before : forall k st, (k < f)%nat -> stage_of c k = Some st -> is_settled st = true;
  inv_after : forall k st, (f < k)%nat -> stage_of c k = Some st -> st = Queued;
  inv_trace_le : forall e, e ∈ ch_trace c -> (e.1 <= f)%nat;
  inv_fifo : trace_fifo (ch_trace c);
  inv_loaded : forall k st, stage_of c k = Some st -> st <> Queued ->
                            (k, ALoad) ∈ ch_trace c;
  inv_logged : forall k e, stage_of c k = Some (Settled (Some e)) ->
                           write_failed e ∈ console (ch_world c)
}.

End Server.

Abbreviation obj := (gmap string JVal).
Abbreviation jsval := (option JVal).

(** ** The rest of the server: CORS, start-up, and views used below *)

(** [[ORIGIN].filter(Boolean)], with [ORIGIN = process.env.ALLOW_ORIGIN || ""] *)
Definition corsOrigins (ORIGIN : jsstring) : list jsstring :=
  List.filter (fun o => negb (bool_decide (o = []))) [ORIGIN].

(** [list.includes(x)] on strings *)
Definition includes (l : list jsstring) (x : jsstring) : bool :=
  existsb (fun o => bool_decide (o = x)) l.

(** The [origin] callback handed to [cors]: [true] for [cb(null, true)].
    [origin] is the request's [Origin] header, [None] when there is none. *)
Definition cors_allows (ORIGIN : jsstring) (origin : option jsstring) : bool :=
  match origin with
  | None => true
  | Some o =>
      bool_decide (o = []) || (length (corsOrigins ORIGIN) =? 0)%nat
      || includes (corsOrigins ORIGIN) o
  end.

Section ServerMore.
Context `{JsNumber}.

(** The store file at start-up: it may not exist yet. *)
Inductive store_file :=
| Missing
| Present (d : Disk).

(** [try { await fs.access(DATA_FILE); } catch { await fs.writeFile(DATA_FILE, "[]\n", "utf8"); }] *)
Definition startup (f : store_file) : store_file :=
  match f with
  | Missing => Present (Stored [])
  | Present d => Present d
  end.

(** The property names of the object literal [sanitizeCard] returns. *)
Definition card_keys : gset string :=
  {[ "id"; "front"; "back"; "lang_from"; "lang_to"; "tags"; "ease";
     "interval"; "next_review"; "lapses"; "created_at" ]}.

(** [Array.isArray(req.body) ? req.body : [req.body]] *)
Definition incoming_of (body : JVal) : list JVal :=
  match body with
  | JArr l => l
  | _ => [body]
  end.

(** The two texts in the words of the specification: [front] from [front]
    or the legacy [portuguese], [back] from [back] or the legacy
    [translation]; a sequence joined with [" / "], and left as joined; a
    leading run of ['='] and the surrounding whitespace stripped from what
    is not a sequence.  To be compared with [sanitizeCard]. *)
Definition stripped_front (c : JVal) : completion jsstring :=
  strip_eq_run_and_space
    <$> ToStringU (nullish_or (nullish_or (prop c "front") (prop c "portuguese"))
                              (Some (JStr []))).

Definition joined_or_stripped_back (c : JVal) : completion jsstring :=
  match nullish_or (nullish_or (prop c "back") (prop c "translation")) (Some (JStr [])) with
  | Some (JArr l) => join (lit " / ") <$> mapM ToString l
  | given_back => strip_eq_run_and_space <$> ToStringU given_back
  end.

(** The two texts of an item, when both conversions return. *)
Definition texts_of (c : JVal) : completion (jsstring * jsstring) :=
  front ← normalizeText <$> ToStringU (frontIn c);
  back ← backText (backIn c);
  Normal (front, back).

(** The three numbers of an item, when the conversions return. *)
Definition numbers_of (c : JVal) : completion (num * num * num) :=
  ease ← ToNumber (easeIn c);
  interval ← ToNumber (intervalIn c);
  lapses ← ToNumber (lapsesIn c);
  Normal (ease, interval, lapses).

Definition returns {A} (r : completion A) : bool :=
  match r with Normal _ => true | Throw _ => false end.

(** Both texts of the item are there and neither is empty. *)
Definition has_texts (c : JVal) : bool :=
  match texts_of c with
  | Normal (front, back) => negb (bool_decide (front = []) || bool_decide (back = []))
  | Throw _ => false
  end.

(** [sanitizeCard] throws on the item: it is [null], or a text cannot be
    converted, or the texts pass and a number cannot be converted. *)
Definition throws_on (c : JVal) : bool :=
  match c with
  | JNull => true
  | _ => negb (returns (texts_of c)) || (has_texts c && negb (returns (numbers_of c)))
  end.

(** [sanitizeCard] returns a card for the item: the item is kept. *)
Definition accepts (c : JVal) : bool :=
  match c with
  | JNull => false
  | _ => has_texts c && returns (numbers_of c)
  end.

(** Some card of the collection has the id [k], as a [Map] compares keys. *)
Definition has_id (cards : list obj) (k : jsval) : bool :=
  existsb (fun c : obj => same_value_zero (c !! "id") k) cards.

(** The items of a batch whose id no card of the collection has. *)
Definition new_items (cards : list obj) (sanitized : list obj) : list obj :=
  List.filter (fun n : obj => negb (has_id cards (n !! "id"))) sanitized.

(** The effect on the file of a unit that went through to its rename. *)
Definition replay_step (cards : list obj)
    (u : (list obj -> completion (list obj)) * stage) : list obj :=
  match u.2 with
  | Settled None =>
      match u.1 cards with
      | Normal next => json_cards next
      | Throw _ => cards
      end
  | _ => cards
  end.

(** The mutators of the units that saved, applied in enqueue order. *)
Definition replay (units : list ((list obj -> completion (list obj)) * stage))
    (cards : list obj) : list obj :=
  fold_left replay_step units cards.



(** [n] steps of the units. *)
Fixpoint unit_steps (n : nat) (c c' : chain) : Prop :=
  match n with
  | O => c = c'
  | S n' => exists c1, unit_step c c1 /\ unit_steps n' c1 c'
  end.

End ServerMore.

(** ** An instance of the number interface, for running the examples

    The half-integers and NaN: enough for the defaults [2.5], [0] and the
    numbers of the scenarios.  [half_of_string] reads the decimal forms
    [half_to_string] prints (after trimming, and the empty string as [0])
    and answers NaN otherwise. *)

Inductive halfnum :=
| Half (twice : Z)
| HNaN.

Fixpoint digits_of_uint (u : Decimal.uint) : jsstring :=
  match u with
  | Decimal.Nil => []
  | Decimal.D0 u' => 48 :: digits_of_uint u'
  | Decimal.D1 u' => 49 :: digits_of_uint u'
  | Decimal.D2 u' => 50 :: digits_of_uint u'
  | Decimal.D3 u' => 51 :: digits_of_uint u'
  | Decimal.D4 u' => 52 :: digits_of_uint u'
  | Decimal.D5 u' => 53 :: digits_of_uint u'
  | Decimal.D6 u' => 54 :: digits_of_uint u'
  | Decimal.D7 u' => 55 :: digits_of_uint u'
  | Decimal.D8 u' => 56 :: digits_of_uint u'
  | Decimal.D9 u' => 57 :: digits_of_uint u'
  end.

Definition half_to_string (x : halfnum) : jsstring :=
  match x with
  | HNaN => lit "NaN"
  | Half z =>
      (if (z <? 0)%Z then lit "-" else [])
      ++ digits_of_uint (N.to_uint (Z.abs_N z / 2))
      ++ (if Z.odd z then lit ".5" else [])
  end.

(** The value of a run of decimal digits, [None] if another character occurs. *)
Fixpoint read_digits (acc : N) (s : jsstring) : option N :=
  match s with
  | [] => Some acc
  | c :: s' =>
      if (48 <=? c) && (c <=? 57) then read_digits (10 * acc + (c - 48)) s'
      else None
  end.

Definition read_unsigned (s : jsstring) : option Z :=
  match s with
  | [] => None
  | _ =>
      let n := length s in
      if bool_decide (drop (n - 2) s = lit ".5") then
        match take (n - 2) s with
        | [] => None
        | ds => (fun v => 2 * Z.of_N v + 1)%Z <$> read_digits 0 ds
        end
      else (fun v => 2 * Z.of_N v)%Z <$> read_digits 0 s
  end.

Definition half_of_string (s : jsstring) : halfnum :=
  match trim s with
  | [] => Half 0
  | 45 :: s' => from_option (fun z => Half (- z)) HNaN (read_unsigned s')
  | 43 :: s' => from_option Half HNaN (read_unsigned s')
  | s' => from_option Half HNaN (read_unsigned s')
  end.

#[global] Instance halfnum_eq_dec : EqDecision halfnum.
Proof. solve_decision. Defined.

#[global] Instance half_JsNumber : JsNumber := {
  num := halfnum;
  num_of_string := half_of_string;
  num_to_string := half_to_string;
  num_truthy := fun x => match x with Half z => negb (z =? 0)%Z | HNaN => false end;
  num_finite := fun x => match x with Half _ => true | HNaN => false end;
  num_nan := HNaN;
  num_0 := Half 0;
  num_1 := Half 2;
  num_2_5 := Half 5
}.

(** ** Sample data for the concrete runs *)

Definition T0 : jsstring := lit "2024-01-01T00:00:00.000Z".
Definition T1 : jsstring := lit "2025-06-01T12:00:00.000Z".
Definition fresh_id : jsstring := lit "k3j9x0q2m5zt".
Definition secret : jsstring := lit "s3cret".
Definition bearer : option jsstring := Some (lit "Bearer s3cret").

(** A card as a first [POST] at time [T0] stores it. *)
Definition card_abc : obj :=
  {[ "id" := JStr (lit "abc"); "front" := JStr (lit "casa");
     "back" := JStr (lit "Haus"); "lang_from" := JStr (lit "pt");
     "lang_to" := JStr (lit "de"); "tags" := JArr [];
     "ease" := JNum (Half 5); "interval" := JNum (Half 0);
     "next_review" := JStr T0; "lapses" := JNum (Half 0);
     "created_at" := JStr T0 ]}.

(** The same card posted again, without [created_at]. *)
Definition raw_abc : JVal :=
  JObj {[ "id" := JStr (lit "abc"); "front" := JStr (lit "casa");
          "back" := JStr (lit "Haus") ]}.

(** The card inside the completion of [sanitizeCard]. *)
Definition sanitized (r : completion (option obj)) : obj :=
  match r with
  | Normal (Some c) => c
  | _ => ∅
  end.

Definition item_abc : obj := sanitized (sanitizeCard T1 fresh_id raw_abc).

(** Field [k] of the card at index [i]. *)
Definition field_at (cards : list obj) (i : nat) (k : string) : jsval :=
  cards !! i ≫= fun c : obj => c !! k.

Definition patch_created_at : JVal := JObj {[ "created_at" := JStr T1 ]}.
Definition patch_interval : JVal := JObj {[ "interval" := JNum (Half 6) ]}.
Definition raw_space_eq : JVal :=
  JObj {[ "id" := JStr (lit "abc"); "front" := JStr (lit " =a");
          "back" := JStr (lit "b") ]}.
Definition raw_only_eq : JVal :=
  JObj {[ "id" := JStr (lit "abc"); "front" := JStr (lit " =");
          "back" := JStr (lit "b") ]}.
Definition card_space_eq : obj := sanitized (sanitizeCard T0 fresh_id raw_space_eq).
Definition card_only_eq : obj := sanitized (sanitizeCard T0 fresh_id raw_only_eq).
Definition raw_back_array : JVal :=
  JObj {[ "front" := JStr (lit "a"); "back" := JArr [JStr (lit "= b ")] ]}.

Definition failing_mutator : list obj -> completion (list obj) :=
  fun _ => Throw MutatorError.
Definition appending_mutator : list obj -> completion (list obj) :=
  fun cards => Normal (cards ++ [card_abc]).

Definition run0 : chain := chain_init (World (Stored []) []).
Definition run1 : chain :=
  Chain (ch_world run0) (ch_units run0 ++ [(failing_mutator, Queued)]) (ch_trace run0)
        (ch_recovering run0).
Definition run2 : chain :=
  Chain (ch_world run1) (ch_units run1 ++ [(appending_mutator, Queued)]) (ch_trace run1)
        (ch_recovering run1).
Definition run3 : chain := set_stage 0 (Loaded []) run2 (ch_world run2) ALoad.
Definition run4 : chain :=
  set_stage 0 (Settled (Some MutatorError)) run3
            (log (write_failed MutatorError) (ch_world run3)) AFail.
Definition run5 : chain := set_stage 1 (Loaded []) run4 (ch_world run4) ALoad.
Definition run6 : chain := set_stage 1 (Applied [card_abc]) run5 (ch_world run5) AApply.
Definition run7 : chain := set_stage 1 (TmpWritten [card_abc]) run6 (ch_world run6) AWriteTmp.
Definition run8 : chain :=
  set_stage 1 (Settled None) run7 (write_file (json_cards [card_abc]) (ch_world run7)) ARename.

(** A run on a file that does not parse: a handler reads it, a unit saves
    [card_abc], and then the recovery write of the handler's read lands. *)
Definition lost0 : chain := chain_init (World Corrupt []).
Definition lost1 : chain :=
  Chain (ch_world lost0) (ch_units lost0 ++ [(appending_mutator, Queued)]) (ch_trace lost0)
        (ch_recovering lost0).
Definition lost2 : chain :=
  Chain (log read_cards_parse_failed (ch_world lost1)) (ch_units lost1) (ch_trace lost1)
        (S (ch_recovering lost1)).
Definition lost3 : chain :=
  set_stage 0 (Loaded []) lost2
            (write_file [] (log read_cards_parse_failed (ch_world lost2))) ALoad.
Definition lost4 : chain := set_stage 0 (Applied [card_abc]) lost3 (ch_world lost3) AApply.
Definition lost5 : chain :=
  set_stage 0 (TmpWritten [card_abc]) lost4 (ch_world lost4) AWriteTmp.
Definition lost6 : chain :=
  set_stage 0 (Settled None) lost5 (write_file (json_cards [card_abc]) (ch_world lost5))
            ARename.
Definition lost7 : chain :=
  Chain (write_file [] (ch_world lost6)) (ch_units lost6) (ch_trace lost6) 0.

(** An object with a property [toString] of its own, as in the body
    [{"toString": 0}]: [String] and [Number] throw on it. *)
Definition unconvertible : JVal := JObj {[ "toString" := JNum (Half 0) ]}.
Definition raw_back_unconvertible : JVal :=
  JObj {[ "front" := JStr (lit "a"); "back" := unconvertible ]}.
Definition raw_ease_unconvertible : JVal :=
  JObj {[ "front" := JStr (lit "a"); "back" := JStr (lit "b");
          "ease" := unconvertible ]}.
Definition patch_unconvertible : JVal := JObj {[ "front" := unconvertible ]}.

Definition item_xyz : obj := <["id" := JStr (lit "xyz")]> item_abc.
Definition card_note : obj := <["note" := JStr (lit "irregular")]> card_abc.
Definition body_with_null : JVal := JArr [raw_abc; JNull].
Definition body_invalid : JVal :=
  JObj {[ "front" := JStr (lit "= "); "back" := JStr (lit "x") ]}.
Definition wrong_bearer : option jsstring := Some (lit "Bearer guess").
Definition world_abc : world := World (Stored [card_abc]) [].

(** * Properties *)

(** ** Text normalization *)

Lemma drop_while_split p s :
  exists pre, s = pre ++ drop_while p s /\ Forall (fun c => p c = true) pre.
Proof.
  induction s as [|c s IH]; simpl.
  - exists []. split; [reflexivity | constructor].
  - destruct (p c) eqn:Hp.
    + destruct IH as (pre & Heq & Hall). exists (c :: pre). split.
      * simpl. congruence.
      * constructor; assumption.
    + exists []. split; [reflexivity | constructor].
Qed.

Lemma drop_while_head p s c r : drop_while p s = c :: r -> p c = false.
Proof.
  induction s as [|d s IH]; simpl; [discriminate |].
  destruct (p d) eqn:Hp; [exact IH |].
  intros [= -> _]. exact Hp.
Qed.

Lemma drop_while_idemp p s : drop_while p (drop_while p s) = drop_while p s.
Proof.
  destruct (drop_while p s) as [|c r] eqn:E; [reflexivity |].
  simpl. by rewrite (drop_while_head _ _ _ _ E).
Qed.

Lemma drop_while_fix p s :
  match s with c :: _ => p c = false | [] => True end -> drop_while p s = s.
Proof. destruct s as [|c r]; simpl; [done |]. by intros ->. Qed.

Lemma normalizeText_strips s : normalizeText s = strip_eq_run_and_space s.
Proof.
  unfold normalizeText, strip_eq_run_and_space, replace_leading_eq.
  destruct s as [|c r]; [reflexivity |].
  destruct (is_eq_sign c) eqn:Hc.
  - unfold trim. by rewrite drop_while_idemp.
  - simpl. by rewrite Hc.
Qed.

Lemma trim_no_leading_space s c r : trim s = c :: r -> is_ws c = false.
Proof.
  unfold trim. intros Ht.
  destruct (drop_while_split is_ws (rev (drop_while is_ws s))) as (pre & Heq & _).
  apply (f_equal (@rev N)) in Heq.
  rewrite rev_involutive, rev_app_distr, Ht in Heq. simpl in Heq.
  by apply drop_while_head in Heq.
Qed.

Lemma trim_no_trailing_space s c r : trim s = r ++ [c] -> is_ws c = false.
Proof.
  unfold trim. intros Ht.
  apply (f_equal (@rev N)) in Ht.
  rewrite rev_involutive, rev_app_distr in Ht. simpl in Ht.
  by apply drop_while_head in Ht.
Qed.

Lemma trim_fix s :
  match s with c :: _ => is_ws c = false | [] => True end ->
  match rev s with c :: _ => is_ws c = false | [] => True end ->
  trim s = s.
Proof.
  intros H1 H2. unfold trim.
  rewrite (drop_while_fix _ s H1), (drop_while_fix _ (rev s) H2).
  apply rev_involutive.
Qed.

Section Properties.
Context `{JsNumber}.

(** ** [sanitizeCard] *)

Lemma sanitizeCard_nonnull now fresh c :
  c <> JNull ->
  sanitizeCard now fresh c =
    (front ← normalizeText <$> ToStringU (frontIn c);
     back ← backText (backIn c);
     if bool_decide (front = []) || bool_decide (back = []) then Normal None
     else
       ease ← ToNumber (easeIn c);
       interval ← ToNumber (intervalIn c);
       lapses ← ToNumber (lapsesIn c);
       Normal (Some (new_card now fresh c front back ease interval lapses))).
Proof. by destruct c. Qed.

(** What a card returned by [sanitizeCard] tells about the input. *)
Lemma sanitizeCard_inv now fresh raw (n : obj) :
  sanitizeCard now fresh raw = Normal (Some n) ->
  exists s b e i l,
    raw <> JNull
    /\ ToStringU (frontIn raw) = Normal s
    /\ backText (backIn raw) = Normal b
    /\ normalizeText s <> [] /\ b <> []
    /\ ToNumber (easeIn raw) = Normal e
    /\ ToNumber (intervalIn raw) = Normal i
    /\ ToNumber (lapsesIn raw) = Normal l
    /\ n = new_card now fresh raw (normalizeText s) b e i l.
Proof.
  intros Hs.
  assert (Hx : raw <> JNull) by (intros ->; discriminate).
  rewrite (sanitizeCard_nonnull _ _ _ Hx) in Hs.
  destruct (ToStringU (frontIn raw)) as [s|] eqn:Hf; [| discriminate].
  destruct (backText (backIn raw)) as [b|] eqn:Hb; [| discriminate].
  cbn in Hs.
  destruct (decide (normalizeText s = [])) as [E|Hfne];
    [by rewrite (bool_decide_eq_true_2 _ E) in Hs |].
  destruct (decide (b = [])) as [E|Hbne];
    [by rewrite (bool_decide_eq_true_2 _ E), orb_true_r in Hs |].
  rewrite (bool_decide_eq_false_2 _ Hfne), (bool_decide_eq_false_2 _ Hbne) in Hs.
  cbn in Hs.
  destruct (ToNumber (easeIn raw)) as [e|]; [| discriminate].
  destruct (ToNumber (intervalIn raw)) as [i|]; [| discriminate].
  destruct (ToNumber (lapsesIn raw)) as [l|]; [| discriminate].
  cbn in Hs. exists s, b, e, i, l. repeat split; try done.
  apply map_eq. intros k.
  apply (f_equal (fun r : completion (option obj) =>
           match r with Normal (Some m) => m !! k | _ => None end)) in Hs.
  by rewrite <- Hs.
Qed.

Lemma new_card_front now fresh c f b e i l :
  new_card now fresh c f b e i l !! "front" = Some (JStr f).
Proof. reflexivity. Qed.

Lemma new_card_back now fresh c f b e i l :
  new_card now fresh c f b e i l !! "back" = Some (JStr b).
Proof. reflexivity. Qed.

Lemma new_card_id now fresh c f b e i l :
  new_card now fresh c f b e i l !! "id" = Some (or_default (prop c "id") (JStr fresh)).
Proof. reflexivity. Qed.

Lemma new_card_created_at now fresh c f b e i l :
  new_card now fresh c f b e i l !! "created_at"
  = Some (or_default (prop c "created_at") (JStr now)).
Proof. reflexivity. Qed.

Lemma new_card_fields now fresh c f b e i l :
  let card := new_card now fresh c f b e i l in
  card !! "lang_from" = Some (or_default (prop c "lang_from") (JStr (lit "pt")))
  /\ card !! "lang_to" = Some (or_default (prop c "lang_to") (JStr (lit "de")))
  /\ card !! "tags" = Some (match prop c "tags" with
                            | Some (JArr l) => JArr (take 10 l)
                            | _ => JArr []
                            end)
  /\ card !! "ease" = Some (JNum e)
  /\ card !! "interval" = Some (JNum i)
  /\ card !! "next_review" = Some (or_default (prop c "next_review") (JStr now))
  /\ card !! "lapses" = Some (JNum l)
  /\ card !! "portuguese" = None
  /\ card !! "translation" = None.
Proof. repeat split. Qed.

Lemma truthy_JStr s : truthy (Some (JStr s)) = true <-> s <> [].
Proof.
  simpl. destruct s; simpl.
  - split; [discriminate | congruence].
  - split; [discriminate | reflexivity].
Qed.

Lemma JStr_neq (s t : jsstring) :
  bool_decide (s = t) = false -> Some (JStr s) <> Some (JStr t).
Proof.
  intros Hd Heq. apply bool_decide_eq_false_1 in Hd. apply Hd.
  by injection Heq.
Qed.

Lemma or_default_truthy a d :
  truthy (Some d) = true -> truthy (Some (or_default a d)) = true.
Proof.
  intros Hd. unfold or_default, or_else.
  destruct (truthy a) eqn:Ha; simpl; [| exact Hd].
  destruct a as [v|]; [exact Ha | discriminate].
Qed.

Lemma or_default_of_truthy v d : truthy (Some v) = true -> or_default (Some v) d = v.
Proof. intros Hv. unfold or_default, or_else. by rewrite Hv. Qed.

(** Sanitizing a sanitized card again only normalizes [front] and [back]
    once more: every other field, the id included, is kept. *)
Lemma new_card_again now fresh x f b e i l now' fresh' f' b' :
  now <> [] -> fresh <> [] ->
  new_card now' fresh' (JObj (new_card now fresh x f b e i l)) f' b' e i l
  = <["front" := JStr f']> (<["back" := JStr b']> (new_card now fresh x f b e i l)).
Proof.
  intros Hnow Hfresh.
  apply truthy_JStr in Hnow, Hfresh.
  assert (Hpt : truthy (Some (JStr (lit "pt"))) = true) by reflexivity.
  assert (Hde : truthy (Some (JStr (lit "de"))) = true) by reflexivity.
  destruct (new_card_fields now fresh x f b e i l)
    as (Hlf & Hlt & Htags & _ & _ & Hnr & _).
  unfold new_card at 1. unfold prop at 1 2 3 4 5 6. unfold own_props.
  rewrite new_card_id, new_card_created_at, Hlf, Hlt, Htags, Hnr.
  rewrite !or_default_of_truthy by (by apply or_default_truthy).
  unfold new_card.
  destruct (prop x "tags") as [[| | | |l0|]|]; try reflexivity.
  rewrite take_take, Nat.min_id.
  reflexivity.
Qed.

(** *** Conversions throw nothing but a TypeError *)

Lemma JVal_ind_list (P : JVal -> Prop) :
  P JNull -> (forall b, P (JBool b)) -> (forall n, P (JNum n)) ->
  (forall s, P (JStr s)) -> (forall l, Forall P l -> P (JArr l)) ->
  (forall m, P (JObj m)) -> forall v, P v.
Proof.
  intros Hnull Hbool Hnum Hstr Harr Hobj.
  fix IH 1.
  intros [|b|n|s|l|m];
    [exact Hnull | apply Hbool | apply Hnum | apply Hstr | | apply Hobj].
  apply Harr. induction l as [|x l IHl]; constructor; [apply IH | exact IHl].
Qed.

Lemma mapM_throws {A B} (f : A -> completion B) (l : list A) e :
  mapM f l = Throw e -> exists x, x ∈ l /\ f x = Throw e.
Proof.
  induction l as [|x l IH]; cbn; [discriminate |].
  destruct (f x) as [y|e'] eqn:Hx; cbn.
  - destruct (mapM f l) as [ys|e'']; cbn; [discriminate |].
    intros [= <-]. destruct IH as (x' & Hin & Hx'); [done |].
    exists x'. split; [by apply list_elem_of_further | done].
  - intros [= <-]. exists x. split; [apply list_elem_of_here | done].
Qed.

Lemma ToString_throws (v : JVal) e : ToString v = Throw e -> e = TypeError.
Proof.
  revert e. induction v as [|b|n|s|l IH|m] using JVal_ind_list; intros e; cbn;
    try discriminate.
  - by destruct b.
  - destruct (mapM _ l) as [ss|e'] eqn:Hm; cbn; [discriminate |].
    intros [= <-].
    apply mapM_throws in Hm as (x & Hin & Hx).
    rewrite Forall_forall in IH.
    destruct x; try discriminate; by apply (IH _ Hin).
  - destruct (m !! "toString"); [by intros [= <-] | discriminate].
Qed.

Lemma ToStringU_throws (v : jsval) e : ToStringU v = Throw e -> e = TypeError.
Proof. destruct v as [v|]; [apply ToString_throws | discriminate]. Qed.

Lemma ToNumber_throws (v : jsval) e : ToNumber v = Throw e -> e = TypeError.
Proof.
  destruct v as [[|[]|n|s|l|m]|]; cbn; try discriminate.
  - destruct (mapM _ l) as [ss|e'] eqn:Hm; cbn; [discriminate |].
    intros [= <-]. apply (ToString_throws (JArr l)). cbn. by rewrite Hm.
  - destruct (m !! "toString"); [by intros [= <-] | discriminate].
Qed.

Lemma backText_throws (v : jsval) e : backText v = Throw e -> e = TypeError.
Proof.
  assert (Hother : forall x, normalizeText <$> ToStringU x = Throw e -> e = TypeError).
  { intros x. destruct (ToStringU x) as [s|e'] eqn:Hx; cbn; [discriminate |].
    intros [= <-]. by apply ToStringU_throws in Hx. }
  destruct v as [[| | | |l|]|]; try apply Hother.
  cbn. destruct (mapM ToString l) as [ss|e'] eqn:Hm; cbn; [discriminate |].
  intros [= <-]. apply mapM_throws in Hm as (x & _ & Hx). by apply ToString_throws in Hx.
Qed.

(** [sanitizeCard] throws nothing but a TypeError. *)
Lemma sanitizeCard_throws now fresh c e :
  sanitizeCard now fresh c = Throw e -> e = TypeError.
Proof.
  assert (c = JNull \/ c <> JNull) as [-> | Hc]
    by (destruct c; (by left) || (by right)); [by intros [= <-] |].
  rewrite (sanitizeCard_nonnull _ _ _ Hc).
  destruct (ToStringU (frontIn c)) as [s|e1] eqn:Hf; cbn;
    [| intros [= <-]; by apply ToStringU_throws in Hf].
  destruct (backText (backIn c)) as [b|e1] eqn:Hb; cbn;
    [| intros [= <-]; by apply backText_throws in Hb].
  destruct (_ || _); [discriminate |].
  destruct (ToNumber (easeIn c)) as [x|e1] eqn:H1; cbn;
    [| intros [= <-]; by apply ToNumber_throws in H1].
  destruct (ToNumber (intervalIn c)) as [y|e1] eqn:H2; cbn;
    [| intros [= <-]; by apply ToNumber_throws in H2].
  destruct (ToNumber (lapsesIn c)) as [z|e1] eqn:H3; cbn;
    [discriminate | intros [= <-]; by apply ToNumber_throws in H3].
Qed.

(** The text left by [strip_eq_run_and_space] is what remains of the input
    once its whole leading run of ['='], then the whitespace on both
    sides, is taken away. *)
Lemma trim_split (s : jsstring) :
  exists pre post, s = pre ++ trim s ++ post
                   /\ Forall (fun c => is_ws c = true) pre
                   /\ Forall (fun c => is_ws c = true) post.
Proof.
  destruct (drop_while_split is_ws s) as (pre & Hs & Hpre).
  destruct (drop_while_split is_ws (rev (drop_while is_ws s))) as (post & Hr & Hpost).
  exists pre, (rev post). split; [| split; [done | by apply List.Forall_rev]].
  unfold trim. rewrite <- rev_app_distr, <- Hr, rev_involutive. exact Hs.
Qed.

Lemma strip_eq_run_and_space_split (s : jsstring) :
  exists eqs pre post,
    s = eqs ++ pre ++ strip_eq_run_and_space s ++ post
    /\ Forall (fun c => is_eq_sign c = true) eqs
    /\ (forall c r, pre ++ strip_eq_run_and_space s ++ post = c :: r ->
                    is_eq_sign c = false)
    /\ Forall (fun c => is_ws c = true) pre
    /\ Forall (fun c => is_ws c = true) post
    /\ (forall c r, strip_eq_run_and_space s = c :: r -> is_ws c = false)
    /\ (forall c r, strip_eq_run_and_space s = r ++ [c] -> is_ws c = false).
Proof.
  unfold strip_eq_run_and_space.
  destruct (drop_while_split is_eq_sign s) as (eqs & Hs & Heqs).
  destruct (trim_split (drop_while is_eq_sign s)) as (pre & post & Ht & Hpre & Hpost).
  exists eqs, pre, post. split; [by rewrite <- Ht |]. split; [done |].
  split; [| split; [done | split; [done |]]].
  - intros c r. rewrite <- Ht. apply drop_while_head.
  - split; [intros c r; apply trim_no_leading_space
           | intros c r; apply trim_no_trailing_space].
Qed.

(** C6, in the form the code satisfies.  For an input other than [null], [front] is the text
    of [front], else of the legacy [portuguese], else empty, with a leading
    run of ['='] and the surrounding whitespace stripped; [back] comes from
    [back], else [translation], else empty: a sequence is joined with
    [" / "] and left as it is, anything else is stripped like [front].
    When one of the two conversions to text throws, so does
    [sanitizeCard].  Otherwise it returns [null] exactly when one of the
    two texts is empty; a card it returns carries the two texts; and when
    neither is empty it returns a card if [ease], [interval] and [lapses]
    convert to numbers and throws if one does not.  The stripped text is
    the input without its whole leading run of ['='] and without the
    whitespace around what follows. *)
Theorem sanitizeCard_text_fields (now fresh : jsstring) (c : JVal) :
  c <> JNull ->
  match stripped_front c, joined_or_stripped_back c with
  | Normal f, Normal b =>
      (sanitizeCard now fresh c = Normal None <-> f = [] \/ b = [])
      /\ (forall card, sanitizeCard now fresh c = Normal (Some card) ->
            card !! "front" = Some (JStr f) /\ card !! "back" = Some (JStr b))
      /\ (f <> [] -> b <> [] ->
          match ToNumber (nullish_or (prop c "ease") (Some (JNum num_2_5))),
                ToNumber (nullish_or (prop c "interval") (Some (JNum num_0))),
                ToNumber (nullish_or (prop c "lapses") (Some (JNum num_0))) with
          | Normal _, Normal _, Normal _ =>
              exists card, sanitizeCard now fresh c = Normal (Some card)
          | _, _, _ => sanitizeCard now fresh c = Throw TypeError
          end)
  | _, _ => sanitizeCard now fresh c = Throw TypeError
  end
  /\ forall s, exists eqs pre post,
       s = eqs ++ pre ++ strip_eq_run_and_space s ++ post
       /\ Forall (fun x => is_eq_sign x = true) eqs
       /\ (forall x r, pre ++ strip_eq_run_and_space s ++ post = x :: r ->
                       is_eq_sign x = false)
       /\ Forall (fun x => is_ws x = true) pre
       /\ Forall (fun x => is_ws x = true) post
       /\ (forall x r, strip_eq_run_and_space s = x :: r -> is_ws x = false)
       /\ (forall x r, strip_eq_run_and_space s = r ++ [x] -> is_ws x = false).
Proof.
  intros Hc.
  split; [| apply strip_eq_run_and_space_split].
  assert (Hn : forall x, normalizeText <$> ToStringU x
                         = strip_eq_run_and_space <$> ToStringU x).
  { intros x. destruct (ToStringU x); [| done]. cbn. by rewrite normalizeText_strips. }
  assert (Hf : normalizeText <$> ToStringU (frontIn c) = stripped_front c) by apply Hn.
  assert (Hb : backText (backIn c) = joined_or_stripped_back c).
  { unfold joined_or_stripped_back, backText. fold (backIn c).
    destruct (backIn c) as [[]|]; try apply Hn. reflexivity. }
  assert (Hfe : forall e, stripped_front c = Throw e -> e = TypeError).
  { intros e. rewrite <- Hf.
    destruct (ToStringU (frontIn c)) as [s|e'] eqn:Hs; cbn; [discriminate |].
    intros [= <-]. by apply ToStringU_throws in Hs. }
  assert (Hbe : forall e, joined_or_stripped_back c = Throw e -> e = TypeError).
  { intros e. rewrite <- Hb. apply backText_throws. }
  rewrite (sanitizeCard_nonnull _ _ _ Hc), Hf, Hb.
  fold (easeIn c) (intervalIn c) (lapsesIn c).
  clear Hf Hb.
  destruct (stripped_front c) as [f|e1];
    [| rewrite (Hfe e1 eq_refl); by destruct (joined_or_stripped_back c)].
  destruct (joined_or_stripped_back c) as [b|e2]; [| by rewrite (Hbe e2 eq_refl)].
  cbn. split; [| split].
  - split.
    + intros Hr.
      destruct (decide (f = [])) as [E|E]; [by left |].
      destruct (decide (b = [])) as [E'|E']; [by right |].
      rewrite (bool_decide_eq_false_2 _ E), (bool_decide_eq_false_2 _ E') in Hr.
      cbn in Hr.
      destruct (ToNumber (easeIn c)); [cbn in Hr | discriminate].
      destruct (ToNumber (intervalIn c)); [cbn in Hr | discriminate].
      destruct (ToNumber (lapsesIn c)); discriminate.
    + intros [E|E]; rewrite E; [reflexivity |].
      by rewrite orb_true_r.
  - intros card.
    destruct (_ || _); [discriminate |].
    destruct (ToNumber (easeIn c)) as [x|]; [cbn | discriminate].
    destruct (ToNumber (intervalIn c)) as [y|]; [cbn | discriminate].
    destruct (ToNumber (lapsesIn c)) as [z|]; [| discriminate].
    cbn. intros Hs.
    split;
      [apply (f_equal (fun r : completion (option obj) =>
                match r with Normal (Some m) => m !! "front" | _ => None end)) in Hs
      |apply (f_equal (fun r : completion (option obj) =>
                match r with Normal (Some m) => m !! "back" | _ => None end)) in Hs];
      by rewrite <- Hs.
  - intros Ef Eb.
    rewrite (bool_decide_eq_false_2 _ Ef), (bool_decide_eq_false_2 _ Eb). cbn.
    destruct (ToNumber (easeIn c)) as [x|e1] eqn:H1; cbn;
      [| by rewrite (ToNumber_throws _ _ H1)].
    destruct (ToNumber (intervalIn c)) as [y|e1] eqn:H2; cbn;
      [| by rewrite (ToNumber_throws _ _ H2)].
    destruct (ToNumber (lapsesIn c)) as [z|e1] eqn:H3; cbn;
      [by eexists | by rewrite (ToNumber_throws _ _ H3)].
Qed.

(** C4, in the form the code satisfies.  Sanitizing the card that [sanitizeCard] returned
    once more keeps every field, the id included, except that [front] and
    [back] are normalized a second time: the card is rejected when that
    empties one of them, and comes back equal exactly when it changes
    neither. *)
Theorem sanitizeCard_twice (now fresh now' fresh' : jsstring) (x : JVal) (c : obj) :
  now <> [] -> fresh <> [] ->
  sanitizeCard now fresh x = Normal (Some c) ->
  exists f b,
    c !! "front" = Some (JStr f) /\ c !! "back" = Some (JStr b)
    /\ sanitizeCard now' fresh' (JObj c)
       = (if bool_decide (normalizeText f = []) || bool_decide (normalizeText b = [])
          then Normal None
          else Normal (Some (<["front" := JStr (normalizeText f)]>
                              (<["back" := JStr (normalizeText b)]> c))))
    /\ (sanitizeCard now' fresh' (JObj c) = Normal (Some c)
        <-> normalizeText f = f /\ normalizeText b = b).
Proof.
  intros Hnow Hfresh Hs.
  apply sanitizeCard_inv in Hs
    as (s & b & e & i & l & _ & _ & _ & Ef & Eb & _ & _ & _ & ->).
  set (f := normalizeText s) in *.
  exists f, b.
  assert (Hagain : sanitizeCard now' fresh' (JObj (new_card now fresh x f b e i l))
    = (if bool_decide (normalizeText f = []) || bool_decide (normalizeText b = [])
       then Normal None
       else Normal (Some (<["front" := JStr (normalizeText f)]>
                           (<["back" := JStr (normalizeText b)]>
                              (new_card now fresh x f b e i l)))))).
  { rewrite sanitizeCard_nonnull by discriminate.
    change (ToStringU (frontIn (JObj (new_card now fresh x f b e i l))))
      with (@Normal jsstring f).
    change (backText (backIn (JObj (new_card now fresh x f b e i l))))
      with (@Normal jsstring (normalizeText b)).
    change (ToNumber (easeIn (JObj (new_card now fresh x f b e i l))))
      with (@Normal num e).
    change (ToNumber (intervalIn (JObj (new_card now fresh x f b e i l))))
      with (@Normal num i).
    change (ToNumber (lapsesIn (JObj (new_card now fresh x f b e i l))))
      with (@Normal num l).
    cbn. by rewrite new_card_again. }
  split; [reflexivity |]. split; [reflexivity |]. split; [exact Hagain |].
  rewrite Hagain. split.
  - destruct (bool_decide (normalizeText f = []) || bool_decide (normalizeText b = []));
      [discriminate |].
    intros Heq.
    assert (Hk : forall k,
      (<["front" := JStr (normalizeText f)]>
         (<["back" := JStr (normalizeText b)]> (new_card now fresh x f b e i l)) : obj) !! k
      = new_card now fresh x f b e i l !! k).
    { intros k.
      apply (f_equal (fun r : completion (option obj) =>
                        match r with Normal (Some m) => m !! k | _ => None end)) in Heq.
      exact Heq. }
    split.
    + specialize (Hk "front"). rewrite lookup_insert_eq, new_card_front in Hk.
      congruence.
    + specialize (Hk "back").
      rewrite lookup_insert_ne, lookup_insert_eq, new_card_back in Hk by done.
      congruence.
  - intros [-> ->].
    rewrite (bool_decide_eq_false_2 _ Ef), (bool_decide_eq_false_2 _ Eb). simpl.
    rewrite (insert_id _ "back") by reflexivity.
    by rewrite (insert_id _ "front") by reflexivity.
Qed.

(** ** The [Map] from ids to indices *)

Lemma same_value_zero_eq (a b : jsval) : same_value_zero a b = true -> a = b.
Proof.
  destruct a as [[]|], b as [[]|]; simpl; try discriminate; try reflexivity;
    intros Hd; apply bool_decide_eq_true_1 in Hd; by subst.
Qed.

Lemma same_value_zero_str (s t : jsstring) :
  same_value_zero (Some (JStr s)) (Some (JStr t)) = bool_decide (s = t).
Proof. reflexivity. Qed.

Lemma map_get_set (m : jsmap) k i k' :
  map_get (map_set m k i) k'
  = if same_value_zero k k' then Some i else map_get m k'.
Proof.
  induction m as [|[k1 j] m IH]; simpl; [reflexivity |].
  destruct (same_value_zero k1 k) eqn:E1; simpl.
  - apply same_value_zero_eq in E1 as ->.
    by destruct (same_value_zero k k').
  - rewrite IH.
    destruct (same_value_zero k1 k') eqn:E2; [| reflexivity].
    destruct (same_value_zero k k') eqn:E3; [| reflexivity].
    pose proof (same_value_zero_eq _ _ E2) as ->.
    pose proof (same_value_zero_eq _ _ E3) as ->.
    congruence.
Qed.

Lemma index_by_id_snoc (cards : list obj) (x : obj) :
  index_by_id (cards ++ [x])
  = map_set (index_by_id cards) (x !! "id") (length cards).
Proof.
  unfold index_by_id, new_Map.
  rewrite imap_app, fold_left_app. simpl. by rewrite Nat.add_0_r.
Qed.

Lemma index_by_id_get (cards : list obj) (k : jsval) :
  index_answer cards k (map_get (index_by_id cards) k).
Proof.
  induction cards as [|x cards IH] using rev_ind.
  - simpl. intros j c Hj. by rewrite lookup_nil in Hj.
  - rewrite index_by_id_snoc, map_get_set.
    destruct (same_value_zero (x !! "id") k) eqn:Ex.
    + split.
      * exists x. split; [| exact Ex].
        rewrite lookup_app_r by lia. by rewrite Nat.sub_diag.
      * intros j c Hlt Hj. apply lookup_lt_Some in Hj.
        rewrite length_app in Hj. simpl in Hj. lia.
    + destruct (map_get (index_by_id cards) k) as [i|]; simpl in *.
      * destruct IH as ((c & Hc & Hsame) & Hlast). split.
        -- exists c. split; [| exact Hsame].
           rewrite lookup_app_l; [exact Hc |]. by apply lookup_lt_Some in Hc.
        -- intros j c' Hlt Hj.
           destruct (decide (j < length cards)%nat) as [Hin|Hout].
           ++ rewrite lookup_app_l in Hj by exact Hin. by apply (Hlast j).
           ++ rewrite lookup_app_r in Hj by lia.
              destruct (j - length cards)%nat; simpl in Hj; [| done].
              by injection Hj as <-.
      * intros j c Hj.
        destruct (decide (j < length cards)%nat) as [Hin|Hout].
        -- rewrite lookup_app_l in Hj by exact Hin. by apply (IH j).
        -- rewrite lookup_app_r in Hj by lia.
           destruct (j - length cards)%nat; simpl in Hj; [| done].
           by injection Hj as <-.
Qed.


Lemma spread_lookup (a b : obj) k :
  spread a b !! k = match b !! k with Some v => Some v | None => a !! k end.
Proof.
  unfold spread. rewrite lookup_union.
  destruct (b !! k), (a !! k); reflexivity.
Qed.


(** *** A batch of items *)

Lemma upsert_step_length (idx : jsmap) (l : list obj) (n : obj) :
  (length l <= length (upsert_step idx l n))%nat.
Proof.
  unfold upsert_step. destruct (map_get idx (n !! "id")).
  - by rewrite length_insert.
  - rewrite length_app. simpl. lia.
Qed.

Lemma upsert_step_other (idx : jsmap) (l : list obj) (n : obj) i :
  (i < length l)%nat -> map_get idx (n !! "id") <> Some i ->
  upsert_step idx l n !! i = l !! i.
Proof.
  intros Hi Hne. unfold upsert_step.
  destruct (map_get idx (n !! "id")) as [j|].
  - apply list_lookup_insert_ne. congruence.
  - by apply lookup_app_l.
Qed.

Lemma upsert_step_hit (idx : jsmap) (l : list obj) (n old : obj) i :
  map_get idx (n !! "id") = Some i -> l !! i = Some old ->
  upsert_step idx l n !! i = Some (spread old n).
Proof.
  intros Hget Hold. unfold upsert_step. rewrite Hget, Hold. simpl.
  apply list_lookup_insert_eq. by apply lookup_lt_Some in Hold.
Qed.

Lemma upsert_fold_other (idx : jsmap) (ns : list obj) (l : list obj) i :
  (i < length l)%nat ->
  (forall n, n ∈ ns -> map_get idx (n !! "id") <> Some i) ->
  fold_left (upsert_step idx) ns l !! i = l !! i.
Proof.
  revert l. induction ns as [|n ns IH]; intros l Hi Hall; [reflexivity |].
  simpl. rewrite IH.
  - apply upsert_step_other; [done |]. apply Hall, list_elem_of_here.
  - pose proof (upsert_step_length idx l n). lia.
  - intros n' Hn'. apply Hall. by apply list_elem_of_further.
Qed.

Lemma upsert_fold_length (idx : jsmap) (ns : list obj) (l : list obj) :
  (length l <= length (fold_left (upsert_step idx) ns l))%nat.
Proof.
  revert l. induction ns as [|n ns IH]; intros l; simpl; [lia |].
  pose proof (upsert_step_length idx l n). pose proof (IH (upsert_step idx l n)). lia.
Qed.


(** *** What [POST] stores has a front and a back *)

Lemma sanitizeCard_texts_nonempty now fresh raw (n : obj) :
  sanitizeCard now fresh raw = Normal (Some n) -> texts_nonempty n.
Proof.
  intros (s & b & e & i & l & _ & _ & _ & Hf & Hb & _ & _ & _ & ->)%sanitizeCard_inv.
  exists (normalizeText s), b. by rewrite new_card_front, new_card_back.
Qed.

Lemma spread_texts_nonempty (old n : obj) :
  texts_nonempty n -> texts_nonempty (spread old n).
Proof.
  intros (f & b & Hf & Hfne & Hb & Hbne). exists f, b.
  rewrite !spread_lookup, Hf, Hb. done.
Qed.

Lemma upsert_texts_nonempty (ns cards : list obj) :
  Forall texts_nonempty cards -> Forall texts_nonempty ns ->
  Forall texts_nonempty (upsert_mutator ns cards).
Proof.
  unfold upsert_mutator. generalize (index_by_id cards). intros idx.
  revert cards. induction ns as [|n ns IH]; intros cards Hcards Hns; [done |].
  apply Forall_cons in Hns as [Hn Hns]. simpl. apply IH; [| done].
  unfold upsert_step. destruct (map_get idx (n !! "id")) as [i|].
  - apply Forall_insert; [done |]. by apply spread_texts_nonempty.
  - apply Forall_app. split; [done |]. by apply Forall_singleton.
Qed.

Lemma sanitize_from_texts_nonempty clock nanoid i incoming rs :
  sanitize_from clock nanoid i incoming = Normal rs ->
  Forall texts_nonempty (omap id rs).
Proof.
  revert i rs. induction incoming as [|c rest IH]; intros i rs; simpl.
  - intros [= <-]. constructor.
  - destruct (sanitizeCard (clock i) (nanoid i) c) as [r|] eqn:Hc; [| discriminate].
    destruct (sanitize_from clock nanoid (S i) rest) as [rs'|] eqn:Hrest;
      [| discriminate].
    intros [= <-]. specialize (IH _ _ Hrest).
    destruct r as [n|]; simpl; [| exact IH].
    constructor; [| exact IH]. by apply (sanitizeCard_texts_nonempty (clock i) (nanoid i) c).
Qed.

Lemma json_cards_texts_nonempty (cards : list obj) :
  Forall texts_nonempty cards -> Forall texts_nonempty (json_cards cards).
Proof.
  intros Hall. unfold json_cards. apply Forall_fmap.
  eapply Forall_impl; [exact Hall |].
  intros c (f & b & Hf & Hfne & Hb & Hbne). exists f, b.
  rewrite !lookup_fmap, Hf, Hb. done.
Qed.

(** ** Reading the store file *)

Lemma safeRead_stored heal_ok (w : world) (cards : list obj) :
  disk w = Stored cards -> safeRead heal_ok w = (Normal cards, w).
Proof. intros Hd. unfold safeRead. by rewrite Hd. Qed.


Lemma safeRead_throws heal_ok (w w' : world) e :
  safeRead heal_ok w = (Throw e, w') ->
  e = IOError /\ heal_ok = false /\ disk w = Corrupt /\ disk w' = Corrupt
  /\ console w' = console w ++ [read_cards_parse_failed].
Proof.
  unfold safeRead. destruct (disk w) as [|cs] eqn:Hd; [| discriminate].
  destruct heal_ok; [discriminate |]. by intros [= <- <-].
Qed.

Lemma safeRead_console heal_ok (w w' : world) (r : completion (list obj)) l :
  safeRead heal_ok w = (r, w') -> l ∈ console w -> l ∈ console w'.
Proof.
  unfold safeRead. destruct (disk w); [| by intros [= _ <-]].
  destruct heal_ok; intros [= _ <-] Hl; simpl; apply elem_of_app; by left.
Qed.

(** X27.  Whatever is posted, a store whose cards all have a non-empty
    front and back is left in that state. *)
Lemma post_keeps_texts_nonempty WRITE_TOKEN clock nanoid save_ok heal_ok reheal_ok
    authorization body (w : world) (cards : list obj) :
  disk w = Stored cards -> Forall texts_nonempty cards ->
  exists cards', disk (post_cards WRITE_TOKEN clock nanoid save_ok heal_ok reheal_ok
                         authorization body w).2 = Stored cards'
                 /\ Forall texts_nonempty cards'.
Proof.
  intros Hdisk Hall. unfold post_cards.
  destruct (requireToken WRITE_TOKEN authorization); [| by exists cards].
  destruct (sanitize_from clock nanoid 0
              match body with JArr l => l | _ => [body] end) as [rs|] eqn:Hrs;
    [| by exists cards].
  pose proof (sanitize_from_texts_nonempty _ _ _ _ _ Hrs) as Hns.
  destruct (omap id rs) as [|n ns] eqn:Hom; [by exists cards |].
  unfold enqueueWrite, safeWrite. rewrite (safeRead_stored _ _ _ Hdisk).
  destruct save_ok; cbn [upsert_mutator].
  - rewrite (safeRead_stored reheal_ok _ (json_cards (upsert_mutator (n :: ns) cards)))
      by reflexivity.
    eexists. split; [reflexivity |].
    by apply json_cards_texts_nonempty, upsert_texts_nonempty.
  - rewrite (safeRead_stored reheal_ok _ cards) by exact Hdisk.
    by exists cards.
Qed.

(** ** Patching and deleting by id *)

Lemma Normal_inj {A} (a b : A) : Normal a = Normal b -> a = b.
Proof. by intros [=]. Qed.

Lemma own_props_or_default (body : JVal) :
  own_props (or_default (Some body) (JObj ∅)) = own_props body.
Proof.
  unfold or_default, or_else.
  destruct (truthy (Some body)) eqn:Ht; simpl; [done |].
  destruct body as [|b|n|s|l|m]; simpl in *; try done.
  destruct s; [done | discriminate].
Qed.

(** The patch, field by field. *)
Lemma normalizePatch_lookup (body : JVal) (patch : obj) (k : string) :
  normalizePatch body = Normal patch ->
  Normal (patch !! k)
  = match prop body k with
    | Some v =>
        if bool_decide (k = "front")
        then (fun s => Some (JStr (normalizeText s))) <$> ToString v
        else if bool_decide (k = "back")
        then (fun s => Some (JStr s)) <$> backText (Some v)
        else Normal (Some v)
    | None => Normal None
    end.
Proof.
  unfold normalizePatch, prop. rewrite own_props_or_default.
  set (p0 := own_props body).
  intros Hp.
  assert (Hsplit : exists p1,
    match p0 !! "front" with
    | Some v => s ← ToString v; Normal (<["front" := JStr (normalizeText s)]> p0)
    | None => Normal p0
    end = Normal p1
    /\ match p1 !! "back" with
       | Some v => s ← backText (Some v); Normal (<["back" := JStr s]> p1)
       | None => Normal p1
       end = Normal patch).
  { destruct (match p0 !! "front" with
              | Some v => s ← ToString v; Normal (<["front" := JStr (normalizeText s)]> p0)
              | None => Normal p0
              end) as [p1|e]; [| discriminate].
    by exists p1. }
  clear Hp. destruct Hsplit as (p1 & H1 & H2).
  assert (Hp1 : forall k', k' <> "front" -> p1 !! k' = p0 !! k').
  { intros k' Hk'. destruct (p0 !! "front") as [v|].
    - destruct (ToString v); [| discriminate]. apply Normal_inj in H1 as <-.
      by rewrite lookup_insert_ne.
    - by apply Normal_inj in H1 as <-. }
  assert (Hfront : Normal (p1 !! "front")
                   = match p0 !! "front" with
                     | Some v => (fun s => Some (JStr (normalizeText s))) <$> ToString v
                     | None => Normal None
                     end).
  { destruct (p0 !! "front") as [v|] eqn:Hv.
    - destruct (ToString v); [| discriminate]. apply Normal_inj in H1 as <-.
      by rewrite lookup_insert_eq.
    - apply Normal_inj in H1 as <-. by rewrite Hv. }
  rewrite (Hp1 "back") in H2 by done.
  destruct (decide (k = "back")) as [-> | Hkb].
  - rewrite bool_decide_eq_false_2 by done. rewrite bool_decide_eq_true_2 by done.
    destruct (p0 !! "back") as [v|] eqn:Hv.
    + destruct (backText (Some v)); [| discriminate]. apply Normal_inj in H2 as <-.
      by rewrite lookup_insert_eq.
    + apply Normal_inj in H2 as <-. by rewrite Hp1, Hv.
  - assert (Hk : patch !! k = p1 !! k).
    { destruct (p0 !! "back") as [v|].
      - destruct (backText (Some v)); [| discriminate]. apply Normal_inj in H2 as <-.
        by rewrite lookup_insert_ne.
      - by apply Normal_inj in H2 as <-. }
    rewrite Hk. rewrite (bool_decide_eq_false_2 (k = "back")) by done.
    destruct (decide (k = "front")) as [-> | Hkf].
    + rewrite bool_decide_eq_true_2 by done. exact Hfront.
    + rewrite Hp1 by done. rewrite (bool_decide_eq_false_2 (k = "front")) by done.
      by destruct (p0 !! k).
Qed.

Lemma normalizePatch_other (body : JVal) (patch : obj) (k : string) :
  normalizePatch body = Normal patch ->
  k <> "front" -> k <> "back" ->
  prop body k = None -> patch !! k = None.
Proof.
  intros Hp Hf Hb Hk. apply Normal_inj.
  by rewrite (normalizePatch_lookup body patch k Hp), Hk.
Qed.

Lemma findIndex_Some (p : obj -> bool) (cards : list obj) i :
  findIndex p cards = Some i -> exists c, cards !! i = Some c /\ p c = true.
Proof.
  revert i. induction cards as [|c cards IH]; simpl; [discriminate |].
  intros i. destruct (p c) eqn:Hp.
  - intros [= <-]. by exists c.
  - destruct (findIndex p cards) as [j|]; simpl; [| discriminate].
    intros [= <-]. by apply IH.
Qed.

Lemma findIndex_None (p : obj -> bool) (cards : list obj) :
  (forall c, c ∈ cards -> p c = false) -> findIndex p cards = None.
Proof.
  induction cards as [|c cards IH]; simpl; [reflexivity |].
  intros Hall. rewrite (Hall c) by apply list_elem_of_here.
  rewrite IH; [reflexivity |].
  intros c' Hc'. apply Hall. by apply list_elem_of_further.
Qed.

Lemma findIndex_found (p : obj -> bool) (cards : list obj) :
  (exists c, c ∈ cards /\ p c = true) -> exists i, findIndex p cards = Some i.
Proof.
  induction cards as [|c cards IH]; simpl.
  - intros (c & Hc & _). by apply elem_of_nil in Hc.
  - intros (c' & Hc' & Hp). destruct (p c) eqn:Hpc; [by eexists |].
    apply elem_of_cons in Hc' as [-> | Hin]; [congruence |].
    destruct IH as [i ->]; [by exists c' |]. by eexists.
Qed.

Lemma filter_keeps_all (p : obj -> bool) (cards : list obj) :
  (forall c, c ∈ cards -> p c = true) -> List.filter p cards = cards.
Proof.
  induction cards as [|c cards IH]; simpl; [reflexivity |].
  intros Hall. rewrite (Hall c) by apply list_elem_of_here.
  rewrite IH; [reflexivity |].
  intros c' Hc'. apply Hall. by apply list_elem_of_further.
Qed.

Lemma filter_length_le (p : obj -> bool) (cards : list obj) :
  (length (List.filter p cards) <= length cards)%nat.
Proof.
  induction cards as [|c cards IH]; simpl; [lia |].
  destruct (p c); simpl; lia.
Qed.

Lemma filter_drops_one (p : obj -> bool) (cards : list obj) :
  (exists c, c ∈ cards /\ p c = false) ->
  (length (List.filter p cards) < length cards)%nat.
Proof.
  induction cards as [|c cards IH]; simpl.
  - intros (c & Hc & _). by apply elem_of_nil in Hc.
  - intros (c' & Hc' & Hp). destruct (p c) eqn:Hpc; simpl.
    + apply elem_of_cons in Hc' as [-> | Hin]; [congruence |].
      assert (length (List.filter p cards) < length cards)%nat
        by (apply IH; by exists c').
      lia.
    + pose proof (filter_length_le p cards). lia.
Qed.

Lemma put_mutator_absent id patch (cards : list obj) :
  (forall c, c ∈ cards -> id_is id c = false) ->
  put_mutator id patch cards = (cards, false).
Proof. intros Hall. unfold put_mutator. by rewrite findIndex_None. Qed.

Lemma delete_mutator_absent id (cards : list obj) :
  (forall c, c ∈ cards -> id_is id c = false) ->
  delete_mutator id cards = (cards, false).
Proof.
  intros Hall. unfold delete_mutator.
  rewrite filter_keeps_all.
  - by rewrite Nat.eqb_refl.
  - intros c Hc. by rewrite (Hall c Hc).
Qed.

Lemma put_mutator_present id patch (cards : list obj) :
  (exists c, c ∈ cards /\ id_is id c = true) ->
  (put_mutator id patch cards).2 = true.
Proof.
  intros Hex. unfold put_mutator.
  by destruct (findIndex_found _ _ Hex) as [i ->].
Qed.

Lemma delete_mutator_present id (cards : list obj) :
  (exists c, c ∈ cards /\ id_is id c = true) ->
  (delete_mutator id cards).2 = true.
Proof.
  intros (c & Hc & Hid). unfold delete_mutator. simpl.
  assert (Hlt : (length (List.filter (fun c => negb (id_is id c)) cards)
                 < length cards)%nat).
  { apply filter_drops_one. exists c. by rewrite Hid. }
  apply negb_true_iff, Nat.eqb_neq. lia.
Qed.

(** C3, in the form the code satisfies.  When the patch carries neither an [id] nor a
    [created_at] field, the card the PUT mutator stores in place of the one
    it found has the same [id] and the same [created_at]. *)
Theorem patch_keeps_id_and_created_at (id : jsstring) (p : JVal) (patch : obj)
    (cards : list obj) (i : nat) (c : obj) :
  findIndex (id_is id) cards = Some i -> cards !! i = Some c ->
  prop p "id" = None -> prop p "created_at" = None ->
  normalizePatch p = Normal patch ->
  let c' := mergePatch c patch in
  put_mutator id patch cards = (<[i := c']> cards, true)
  /\ c' !! "id" = c !! "id"
  /\ c' !! "created_at" = c !! "created_at".
Proof.
  intros Hfind Hc Hid Hcreated Hp c'. unfold put_mutator. rewrite Hfind, Hc. simpl.
  split; [reflexivity |].
  unfold c', mergePatch. rewrite !spread_lookup.
  by rewrite !(normalizePatch_other p patch).
Qed.

(** A patch without an [id] field keeps the id, whatever else it carries. *)
Lemma patch_keeps_id (p : JVal) (patch c : obj) :
  normalizePatch p = Normal patch ->
  prop p "id" = None -> mergePatch c patch !! "id" = c !! "id".
Proof.
  intros Hp Hid. unfold mergePatch. rewrite spread_lookup.
  by rewrite (normalizePatch_other p patch).
Qed.


(** ** The store file and the handlers *)

(** C8, in the form the code satisfies.  When the store file does not
    parse, [safeRead] logs [read_cards_parse_failed] and writes the empty
    array to the file.  When that write succeeds it returns the empty
    collection without throwing, [GET /api/cards] answers with no cards
    and count 0, and the file holds the empty array.  When that write
    fails its exception is the one [safeRead], and with it
    [GET /api/cards], throws, and the file is as it was. *)
Theorem corrupt_store_recovery (heal_ok : bool) (w : world) :
  disk w = Corrupt ->
  console (safeRead heal_ok w).2 = console w ++ [read_cards_parse_failed]
  /\ (heal_ok = true ->
      safeRead heal_ok w
      = (Normal [], World (Stored []) (console w ++ [read_cards_parse_failed]))
      /\ get_cards heal_ok w
         = (Normal (RCards [] 0),
            World (Stored []) (console w ++ [read_cards_parse_failed]))
      /\ disk (get_cards heal_ok w).2 = Stored [])
  /\ (heal_ok = false ->
      safeRead heal_ok w
      = (Throw IOError, World Corrupt (console w ++ [read_cards_parse_failed]))
      /\ get_cards heal_ok w
         = (Throw IOError, World Corrupt (console w ++ [read_cards_parse_failed]))
      /\ disk (get_cards heal_ok w).2 = Corrupt).
Proof.
  intros Hdisk. unfold get_cards, safeRead, log. rewrite Hdisk.
  split; [by destruct heal_ok |]. split; intros ->; by simpl.
Qed.

(** C10.  With [WRITE_TOKEN] unset or empty, [requireToken] refuses every
    Authorization header, and the POST, PUT and DELETE handlers answer 401
    [unauthorized] and leave the world untouched. *)
Theorem unconfigured_server_is_read_only (env : option jsstring)
    (authorization : option jsstring) (clock nanoid : nat -> jsstring)
    (save_ok heal_ok reheal_ok : bool) (id : jsstring) (body : JVal) (w : world) :
  env = None \/ env = Some [] ->
  requireToken (write_token_of_env env) authorization = None
  /\ post_cards (write_token_of_env env) clock nanoid save_ok heal_ok reheal_ok
                authorization body w
     = (Normal (RError 401 "unauthorized"), w)
  /\ put_card (write_token_of_env env) save_ok heal_ok authorization id body w
     = (Normal (RError 401 "unauthorized"), w)
  /\ delete_card (write_token_of_env env) save_ok heal_ok authorization id w
     = (RError 401 "unauthorized", w).
Proof.
  intros [-> | ->]; by simpl.
Qed.

(** ** The write chain *)

Lemma stage_of_set_stage k st (c : chain) w a k' :
  stage_of (set_stage k st c w a) k'
  = if decide (k = k') then (fun _ => st) <$> stage_of c k' else stage_of c k'.
Proof.
  unfold stage_of, set_stage. simpl. case_decide as Hk.
  - subst. rewrite list_lookup_alter_eq. by destruct (ch_units c !! k').
  - by rewrite list_lookup_alter_ne.
Qed.

(** What every step of a unit has in common. *)
Lemma unit_step_shape (c c' : chain) :
  unit_step c c' ->
  exists k m st st' w' a,
    ch_units c !! k = Some (m, st) /\ c' = set_stage k st' c w' a
    /\ is_settled st = false /\ st' <> Queued
    /\ (st = Queued -> ready c k /\ a = ALoad)
    /\ (stage_work st' < stage_work st)%nat
    /\ (forall l, l ∈ console (ch_world c) -> l ∈ console w')
    /\ (forall e, st' = Settled (Some e) -> write_failed e ∈ console w').
Proof.
  assert (Hlog : forall e (lines : list logline) l,
            l ∈ lines -> l ∈ lines ++ [write_failed e]).
  { intros e lines l Hl. apply elem_of_app. by left. }
  assert (Hnew : forall e (lines : list logline) e',
            Settled (Some e) = Settled (Some e') ->
            write_failed e' ∈ lines ++ [write_failed e]).
  { intros e lines e' [= ->]. apply elem_of_app. right. apply list_elem_of_here. }
  destruct 1 as [k m h cur w' Hk Hr Hread | k m h e w' Hk Hr Hread
                | k m cur next Hk Hm | k m cur e Hk Hm | k m next Hk
                | k m next Hk | k m next Hk | k m next Hk];
    (eexists k, m, _, _, _, _; split; [exact Hk |]; split; [reflexivity |]);
    repeat split; simpl; try done; try lia; try (by apply Hlog); try (by apply Hnew).
  - intros l. by apply (safeRead_console _ _ _ _ _ Hread).
  - intros l Hl. apply Hlog. by apply (safeRead_console _ _ _ _ _ Hread).
Qed.

Lemma chain_inv_unit_step (c c' : chain) f :
  chain_inv c f -> unit_step c c' -> exists f', chain_inv c' f'.
Proof.
  intros [Hbound Hbefore Hafter Hle Hfifo Hloaded Hlogged] Hstep.
  destruct (unit_step_shape _ _ Hstep)
    as (k & m & st & st' & w' & a & Hk & -> & Hst & Hst' & Hq & _ & Hmono & Hfail).
  assert (Hsk : stage_of c k = Some st) by (unfold stage_of; by rewrite Hk).
  assert (Hfk : (f <= k)%nat).
  { destruct (decide (f <= k)%nat) as [|Hn]; [done |].
    rewrite (Hbefore k st) in Hst by (done || lia). discriminate. }
  assert (Hprev : forall k' st0, (k' < k)%nat -> stage_of c k' = Some st0 ->
                                 is_settled st0 = true).
  { intros k' st0 Hlt Hs0.
    destruct (decide (k' < f)%nat) as [Hin|Hout]; [by apply (Hbefore k') |].
    assert (Hqueued : st = Queued) by (apply (Hafter k); [lia | done]).
    destruct (Hq Hqueued) as [Hready _].
    destruct k as [|j]; [lia |]. destruct Hready as [o Hj].
    assert (j <= f)%nat.
    { destruct (decide (j <= f)%nat) as [|Hn]; [done |].
      assert (Settled o = Queued) by (apply (Hafter j); [lia | done]). discriminate. }
    assert (k' = j) by lia. subst. rewrite Hj in Hs0. by injection Hs0 as <-. }
  exists k. split.
  - simpl. rewrite length_alter. apply lookup_lt_Some in Hk. lia.
  - intros k' st0 Hlt. rewrite stage_of_set_stage.
    rewrite decide_False by lia. by apply Hprev.
  - intros k' st0 Hlt. rewrite stage_of_set_stage.
    rewrite decide_False by lia. apply Hafter. lia.
  - simpl. intros e He. apply elem_of_app in He as [He | He].
    + apply Hle in He. lia.
    + apply list_elem_of_singleton in He as ->. simpl. lia.
  - simpl. intros i j e1 e2 Hij H1 H2.
    assert (Hi : (i < length (ch_trace c))%nat).
    { apply lookup_lt_Some in H1, H2. rewrite length_app in H1, H2. simpl in *. lia. }
    rewrite lookup_app_l in H1 by done.
    destruct (decide (j < length (ch_trace c))%nat) as [Hj|Hj].
    + rewrite lookup_app_l in H2 by done. by apply (Hfifo i j).
    + rewrite lookup_app_r in H2 by lia.
      destruct (j - length (ch_trace c))%nat; simpl in H2; [| done].
      injection H2 as <-. simpl.
      assert (e1.1 <= f)%nat; [| lia].
      apply Hle. by apply list_elem_of_lookup_2 in H1.
  - simpl. intros k' st0. rewrite stage_of_set_stage. case_decide as Hkk.
    + subst k'. rewrite Hsk. simpl. intros [= <-] _.
      apply elem_of_app.
      assert (st = Queued \/ st <> Queued) as [Hqueued|Hn]
        by (destruct st; (by left) || (by right)).
      * destruct (Hq Hqueued) as [_ ->]. right. apply list_elem_of_here.
      * left. by apply (Hloaded k st).
    + intros Hs0 Hn. apply elem_of_app. left. by apply (Hloaded k' st0).
  - simpl. intros k' e. rewrite stage_of_set_stage. case_decide as Hkk.
    + subst k'. rewrite Hsk. simpl. intros [= Heq]. by apply Hfail.
    + intros Hs0. apply Hmono. by apply (Hlogged k').
Qed.

Lemma chain_inv_reachable w (c : chain) : reachable w c -> exists f, chain_inv c f.
Proof.
  induction 1 as [|c c' _ [f IH] Hstep].
  - exists 0%nat. split; simpl; try done; try lia.
    intros e He. by apply elem_of_nil in He.
  - destruct Hstep as [c' Hu | m | Hcorrupt | n Hn | n Hn].
    + by apply (chain_inv_unit_step c c' f).
    + destruct IH as [Hbound Hbefore Hafter Hle Hfifo Hloaded Hlogged].
      assert (Hold : forall k st,
        stage_of (Chain (ch_world c) (ch_units c ++ [(m, Queued)]) (ch_trace c)
                        (ch_recovering c)) k
          = Some st -> stage_of c k = Some st \/ st = Queued).
      { intros k st. unfold stage_of. simpl.
        destruct (decide (k < length (ch_units c))%nat) as [Hin|Hout].
        - rewrite lookup_app_l by done. by left.
        - rewrite lookup_app_r by lia.
          destruct (k - length (ch_units c))%nat; simpl; [| done].
          intros [= <-]. by right. }
      exists f. split; simpl; try done.
      * rewrite length_app. lia.
      * intros k st Hlt Hs. unfold stage_of in Hs. simpl in Hs.
        rewrite lookup_app_l in Hs by lia. by apply (Hbefore k).
      * intros k st Hlt Hs. destruct (Hold k st Hs) as [Hs'|]; [| done].
        by apply (Hafter k).
      * intros k st Hs Hn. destruct (Hold k st Hs) as [Hs'|]; [| done].
        by apply (Hloaded k st).
      * intros k e Hs. destruct (Hold k _ Hs) as [Hs'|]; [| done].
        by apply (Hlogged k).
    + destruct IH as [Hbound Hbefore Hafter Hle Hfifo Hloaded Hlogged].
      exists f. split; simpl; try done.
      intros k e Hs. apply elem_of_app. left. by apply (Hlogged k).
    + destruct IH as [Hbound Hbefore Hafter Hle Hfifo Hloaded Hlogged].
      exists f. by split.
    + destruct IH as [Hbound Hbefore Hafter Hle Hfifo Hloaded Hlogged].
      exists f. by split.
Qed.

Lemma stage_of_unit (c : chain) k st :
  stage_of c k = Some st -> exists m, ch_units c !! k = Some (m, st).
Proof.
  unfold stage_of. destruct (ch_units c !! k) as [[m st0]|]; simpl; [| done].
  intros [= ->]. by exists m.
Qed.

(** A unit whose predecessor is settled can always take its next step,
    whether or not that predecessor failed. *)
Lemma ready_unit_steps (c : chain) k st :
  stage_of c k = Some st -> is_settled st = false -> ready c k ->
  exists c', unit_step c c'.
Proof.
  intros Hs Hn Hr. destruct (stage_of_unit _ _ _ Hs) as [m Hk].
  destruct st as [|current|next|next|o]; [| | | | discriminate].
  - destruct (safeRead true (ch_world c)) as [[current|e] w'] eqn:Hread.
    + eexists. by eapply step_load.
    + eexists. by eapply step_load_throws.
  - destruct (m current) as [next|e] eqn:Hm.
    + eexists. by eapply step_apply.
    + eexists. by eapply step_apply_throws.
  - eexists. by eapply step_write_tmp.
  - eexists. by eapply step_rename.
Qed.

Lemma chain_progress (c : chain) k st :
  stage_of c k = Some st -> is_settled st = false -> exists c', unit_step c c'.
Proof.
  revert st. induction k as [|j IH]; intros st Hs Hn.
  - by apply (ready_unit_steps c 0%nat st).
  - destruct (stage_of c j) as [stj|] eqn:Hj.
    + destruct stj as [| | | |o] eqn:Est;
        try (by apply (IH _ eq_refl)).
      apply (ready_unit_steps c (S j) st Hs Hn). by exists o.
    + unfold stage_of in Hs, Hj.
      destruct (ch_units c !! j) eqn:Hl; [done |].
      apply lookup_ge_None in Hl.
      destruct (ch_units c !! S j) eqn:Hl'; [| done].
      apply lookup_lt_Some in Hl'. lia.
Qed.

Lemma work_alter (units : list ((list obj -> completion (list obj)) * stage))
    k m st st' :
  units !! k = Some (m, st) -> (stage_work st' < stage_work st)%nat ->
  (foldr (fun u n => (stage_work u.2 + n)%nat) 0%nat (alter (fun u => (u.1, st')) k units)
   < foldr (fun u n => (stage_work u.2 + n)%nat) 0%nat units)%nat.
Proof.
  revert k. induction units as [|u units IH]; intros k Hk Hlt; [done |].
  destruct k as [|k]; simpl in Hk.
  - injection Hk as ->.
    change (stage_work st' + foldr (fun u n => stage_work u.2 + n) 0 units
            < stage_work st + foldr (fun u n => stage_work u.2 + n) 0 units)%nat.
    lia.
  - specialize (IH k Hk Hlt).
    change (stage_work u.2
            + foldr (fun u n => stage_work u.2 + n) 0 (alter (fun u => (u.1, st')) k units)
            < stage_work u.2 + foldr (fun u n => stage_work u.2 + n) 0 units)%nat.
    lia.
Qed.

Lemma unit_step_work (c c' : chain) :
  unit_step c c' -> (chain_work c' < chain_work c)%nat.
Proof.
  intros Hstep.
  destruct (unit_step_shape _ _ Hstep)
    as (k & m & st & st' & w' & a & Hk & -> & _ & _ & _ & Hlt & _).
  unfold chain_work. simpl. by apply (work_alter _ k m st).
Qed.

Lemma unit_step_length (c c' : chain) :
  unit_step c c' -> length (ch_units c') = length (ch_units c).
Proof.
  intros Hstep.
  destruct (unit_step_shape _ _ Hstep)
    as (k & m & st & st' & w' & a & _ & -> & _).
  simpl. apply length_alter.
Qed.

Lemma work_zero_settled (c : chain) k st :
  chain_work c = 0%nat -> stage_of c k = Some st -> is_settled st = true.
Proof.
  unfold chain_work, stage_of. generalize (ch_units c). intros units. revert k.
  induction units as [|u units IH]; intros k Hw Hs; [done |].
  simpl in Hw. destruct k as [|k]; simpl in Hs.
  - injection Hs as <-. destruct (u.2); simpl in *; done || lia.
  - apply (IH k); [lia | done].
Qed.

Lemma work_pos_unsettled (c : chain) :
  (0 < chain_work c)%nat ->
  exists k st, stage_of c k = Some st /\ is_settled st = false.
Proof.
  unfold chain_work, stage_of. generalize (ch_units c). intros units.
  induction units as [|u units IH]; simpl; [lia |].
  intros Hw. destruct (is_settled u.2) eqn:Hu.
  - destruct IH as (k & st & Hs & Hn).
    + destruct (u.2); simpl in *; done || lia.
    + by exists (S k), st.
  - by exists 0%nat, u.2.
Qed.

(** Left alone, the chain settles every unit. *)
Lemma chain_drains (c : chain) :
  exists c', rtc unit_step c c'
             /\ length (ch_units c') = length (ch_units c)
             /\ forall k st, stage_of c' k = Some st -> is_settled st = true.
Proof.
  remember (chain_work c) as n eqn:Hn. revert c Hn.
  induction n as [n IH] using lt_wf_ind. intros c Hn.
  destruct n as [|n'].
  - exists c. split; [done |]. split; [done |].
    intros k st. by apply work_zero_settled.
  - destruct (work_pos_unsettled c) as (k & st & Hs & Hst); [lia |].
    destruct (chain_progress c k st Hs Hst) as [c1 Hstep].
    pose proof (unit_step_work _ _ Hstep) as Hlt.
    destruct (IH (chain_work c1)) with (c := c1) as (c' & Hrtc & Hlen & Hall);
      [lia | done |].
    exists c'. split; [by eapply rtc_l |]. split; [| done].
    by rewrite Hlen, (unit_step_length _ _ Hstep).
Qed.

Lemma reachable_unit_steps w (c c' : chain) :
  reachable w c -> rtc unit_step c c' -> reachable w c'.
Proof.
  intros Hr Hsteps. induction Hsteps as [|c c1 c' Hstep _ IH]; [done |].
  apply IH. eapply reach_step; [exact Hr |]. by apply step_unit.
Qed.

(** C5.  In every state the chain can reach: the units have acted in
    enqueue order, and the actions of one unit are not interleaved with
    another's; at most one unit is between its load and its settlement;
    every failure of a mutator or of the save is on the console; no
    settled unit was skipped; a unit that is not settled never blocks the
    chain, whatever happened to the units before it; and the chain, left
    to run, settles every enqueued unit after it has loaded. *)
Theorem write_chain_fifo_and_isolated (w0 : world) (c : chain) :
  reachable w0 c ->
  trace_fifo (ch_trace c)
  /\ (forall i l j e1 e2 e3, (i < l)%nat -> (l < j)%nat ->
        ch_trace c !! i = Some e1 -> ch_trace c !! l = Some e2 ->
        ch_trace c !! j = Some e3 -> e1.1 = e3.1 -> e2.1 = e1.1)
  /\ (forall i j si sj, stage_of c i = Some si -> stage_of c j = Some sj ->
        in_flight si = true -> in_flight sj = true -> i = j)
  /\ (forall k e, stage_of c k = Some (Settled (Some e)) ->
        write_failed e ∈ console (ch_world c))
  /\ (forall k o, stage_of c k = Some (Settled o) -> (k, ALoad) ∈ ch_trace c)
  /\ (forall k st, stage_of c k = Some st -> is_settled st = false ->
        exists c', unit_step c c')
  /\ (exists c', rtc unit_step c c' /\ reachable w0 c'
        /\ forall k, (k < length (ch_units c))%nat ->
             exists o, stage_of c' k = Some (Settled o)
                       /\ (k, ALoad) ∈ ch_trace c').
Proof.
  intros Hreach.
  destruct (chain_inv_reachable _ _ Hreach)
    as [f [Hbound Hbefore Hafter Hle Hfifo Hloaded Hlogged]].
  split; [exact Hfifo |]. split.
  { intros i l j e1 e2 e3 Hil Hlj H1 H2 H3 Heq.
    pose proof (Hfifo i l e1 e2 Hil H1 H2).
    pose proof (Hfifo l j e2 e3 Hlj H2 H3). lia. }
  split.
  { assert (Hat : forall i si, stage_of c i = Some si -> in_flight si = true -> i = f).
    { intros i si Hs Hin.
      destruct (decide (i < f)%nat) as [Hlt|Hge].
      - pose proof (Hbefore i si Hlt Hs). by destruct si.
      - destruct (decide (f < i)%nat) as [Hgt|Hle'].
        + rewrite (Hafter i si Hgt Hs) in Hin. discriminate.
        + lia. }
    intros i j si sj Hi Hj Hini Hinj.
    rewrite (Hat i si Hi Hini). symmetry. by apply (Hat j sj). }
  split; [exact Hlogged |]. split.
  { intros k o Hs. by apply (Hloaded k (Settled o)). }
  split; [apply chain_progress |].
  destruct (chain_drains c) as (c' & Hrtc & Hlen & Hall).
  exists c'. split; [exact Hrtc |].
  pose proof (reachable_unit_steps _ _ _ Hreach Hrtc) as Hreach'.
  split; [exact Hreach' |].
  destruct (chain_inv_reachable _ _ Hreach') as [f' [_ _ _ _ _ Hloaded' _]].
  intros k Hk. rewrite <- Hlen in Hk.
  destruct (lookup_lt_is_Some_2 _ _ Hk) as [[m st] Hu].
  assert (Hs : stage_of c' k = Some st) by (unfold stage_of; by rewrite Hu).
  pose proof (Hall k st Hs) as Hset.
  destruct st as [| | | |o]; try discriminate.
  exists o. split; [exact Hs |]. by apply (Hloaded' k (Settled o)).
Qed.

(** X26.  [await enqueueWrite(mutator)] of the handlers is one unit of the
    chain run from an idle chain to its settlement: the same world
    results, for a save that succeeds and for a save that fails, and
    likewise for the recovery write of the read. *)
Lemma enqueueWrite_is_one_unit (save_ok heal_ok : bool)
    (m : list obj -> completion (list obj)) (w : world) :
  exists c',
    rtc unit_step (Chain w [(m, Queued)] [] 0) c'
    /\ (exists o, stage_of c' 0 = Some (Settled o))
    /\ ch_world c'
       = (enqueueWrite save_ok heal_ok
            (fun cards => match m cards with
                          | Normal next => Normal (next, tt)
                          | Throw e => Throw e
                          end) w).2.
Proof.
  unfold enqueueWrite, safeWrite.
  destruct (safeRead heal_ok w) as [[current|e] w1] eqn:Hread.
  - assert (Hload : unit_step (Chain w [(m, Queued)] [] 0)
                      (Chain w1 [(m, Loaded current)] [(0%nat, ALoad)] 0)).
    { exact (step_load (Chain w [(m, Queued)] [] 0) 0%nat m heal_ok current w1
               eq_refl I Hread). }
    destruct (m current) as [next|e] eqn:Hm.
    + assert (Happly : unit_step (Chain w1 [(m, Loaded current)] [(0%nat, ALoad)] 0)
                         (Chain w1 [(m, Applied next)]
                                [(0%nat, ALoad); (0%nat, AApply)] 0)).
      { exact (step_apply (Chain w1 [(m, Loaded current)] [(0%nat, ALoad)] 0)
                 0%nat m current next eq_refl Hm). }
      destruct save_ok.
      * eexists. split.
        -- eapply rtc_l; [exact Hload |]. eapply rtc_l; [exact Happly |].
           eapply rtc_l; [by eapply (step_write_tmp _ 0%nat m next) |].
           eapply rtc_l; [by eapply (step_rename _ 0%nat m next) |].
           apply rtc_refl.
        -- split; [by eexists | reflexivity].
      * eexists. split.
        -- eapply rtc_l; [exact Hload |]. eapply rtc_l; [exact Happly |].
           eapply rtc_l; [by eapply (step_write_tmp_fails _ 0%nat m next) |].
           apply rtc_refl.
        -- split; [by eexists | reflexivity].
    + eexists. split.
      * eapply rtc_l; [exact Hload |].
        eapply rtc_l; [by eapply (step_apply_throws _ 0%nat m current e) |].
        apply rtc_refl.
      * split; [by eexists | reflexivity].
  - eexists. split.
    + eapply rtc_l; [| apply rtc_refl].
      exact (step_load_throws (Chain w [(m, Queued)] [] 0) 0%nat m heal_ok e w1
               eq_refl I Hread).
    + split; [by eexists | reflexivity].
Qed.

End Properties.

(** * Further properties of the server *)

(** ** Authorization and CORS *)

Lemma startsWith_app (p r : jsstring) : startsWith p (p ++ r) = true.
Proof.
  induction p as [|a p IH]; simpl; [by destruct r |].
  by rewrite N.eqb_refl, IH.
Qed.

Lemma startsWith_inv (p s : jsstring) :
  startsWith p s = true -> s = p ++ drop (length p) s.
Proof.
  revert s. induction p as [|a p IH]; intros s; simpl; [done |].
  destruct s as [|b s]; [discriminate |].
  intros [Hab Hrest]%andb_true_iff. apply N.eqb_eq in Hab as ->.
  simpl. f_equal. by apply IH.
Qed.

(** ** When the normalized text is empty *)

Lemma drop_while_nil_iff p (s : jsstring) :
  drop_while p s = [] <-> Forall (fun c => p c = true) s.
Proof.
  split.
  - intros Hd. destruct (drop_while_split p s) as (pre & Heq & Hall).
    rewrite Hd, app_nil_r in Heq. by subst.
  - induction 1 as [|c s Hc _ IH]; simpl; [done |]. by rewrite Hc.
Qed.

Lemma drop_while_app_all p (pre s : jsstring) :
  Forall (fun c => p c = true) pre -> drop_while p (pre ++ s) = drop_while p s.
Proof. induction 1 as [|c pre Hc _ IH]; simpl; [done |]. by rewrite Hc. Qed.

Lemma drop_while_Forall (q : N -> Prop) p (s : jsstring) :
  Forall q s -> Forall q (drop_while p s).
Proof.
  induction 1 as [|c s Hc Hs IH]; simpl; [constructor |].
  destruct (p c); [done | by constructor].
Qed.

Lemma trim_nil_iff (s : jsstring) :
  trim s = [] <-> Forall (fun c => is_ws c = true) s.
Proof.
  unfold trim. split.
  - intros Ht. apply (f_equal (@rev N)) in Ht. rewrite rev_involutive in Ht.
    simpl in Ht. apply drop_while_nil_iff, List.Forall_rev in Ht.
    rewrite rev_involutive in Ht.
    destruct (drop_while_split is_ws s) as (pre & Heq & Hall).
    rewrite Heq. apply Forall_app. by split.
  - intros Hall. apply drop_while_nil_iff in Hall. by rewrite Hall.
Qed.

(** X9.  The normalization empties a text, so that [sanitizeCard] rejects
    the item, exactly when the text is a run of ['='] followed by a run of
    whitespace (either may be empty). *)
Theorem normalizeText_empty_iff (s : jsstring) :
  normalizeText s = []
  <-> exists eqs ws, s = eqs ++ ws
                     /\ Forall (fun c => is_eq_sign c = true) eqs
                     /\ Forall (fun c => is_ws c = true) ws.
Proof.
  rewrite normalizeText_strips. unfold strip_eq_run_and_space.
  rewrite trim_nil_iff. split.
  - intros Hall. destruct (drop_while_split is_eq_sign s) as (pre & Heq & Hpre).
    by exists pre, (drop_while is_eq_sign s).
  - intros (eqs & ws & -> & Heqs & Hws).
    rewrite drop_while_app_all by done. by apply drop_while_Forall.
Qed.

Section MoreProperties.
Context `{JsNumber}.

Lemma requireToken_exact_bearer_aux (WRITE_TOKEN : jsstring)
    (authorization : option jsstring) (t : jsstring) :
  requireToken WRITE_TOKEN authorization = Some t ->
  WRITE_TOKEN <> [] /\ authorization = Some (lit "Bearer " ++ WRITE_TOKEN)
  /\ t = WRITE_TOKEN.
Proof.
  unfold requireToken.
  set (auth := default [] authorization).
  set (token := if startsWith (lit "Bearer ") auth then drop 7 auth else []).
  destruct (bool_decide_reflect (WRITE_TOKEN = [])) as [|Hne]; [discriminate |].
  destruct (bool_decide_reflect (token = WRITE_TOKEN)) as [Heq|]; [| discriminate].
  intros [= <-]. split; [done |]. split; [| done].
  unfold token in *. clear token.
  destruct (startsWith (lit "Bearer ") auth) eqn:Hsw; [| by subst].
  apply startsWith_inv in Hsw.
  change (length (lit "Bearer ")) with 7%nat in Hsw.
  unfold auth in *. destruct authorization as [a|]; simpl in *; [| discriminate].
  by rewrite <- Heq, <- Hsw.
Qed.

(** X1.  [requireToken] lets a request through exactly when a secret is
    configured and the Authorization header is ["Bearer "] followed by
    that secret; it then returns the secret. *)
Theorem requireToken_exact_bearer (WRITE_TOKEN : jsstring)
    (authorization : option jsstring) (t : jsstring) :
  requireToken WRITE_TOKEN authorization = Some t
  <-> WRITE_TOKEN <> [] /\ authorization = Some (lit "Bearer " ++ WRITE_TOKEN)
      /\ t = WRITE_TOKEN.
Proof.
  split; [apply requireToken_exact_bearer_aux |].
  unfold requireToken. intros (Hne & -> & ->).
  change (default [] (Some (lit "Bearer " ++ WRITE_TOKEN)))
    with (lit "Bearer " ++ WRITE_TOKEN).
  rewrite startsWith_app.
  rewrite (bool_decide_eq_false_2 _ Hne).
  change (drop 7 (lit "Bearer " ++ WRITE_TOKEN)) with WRITE_TOKEN.
  by rewrite bool_decide_eq_true_2.
Qed.

(** X2.  A request that [requireToken] does not let through is answered
    401 by the three mutation routes and touches neither the file nor the
    console, whatever its body. *)
Theorem refused_request_changes_nothing (WRITE_TOKEN : jsstring)
    (authorization : option jsstring) (clock nanoid : nat -> jsstring)
    (save_ok heal_ok reheal_ok : bool) (id : jsstring) (body : JVal) (w : world) :
  (WRITE_TOKEN = [] \/ authorization <> Some (lit "Bearer " ++ WRITE_TOKEN)) ->
  post_cards WRITE_TOKEN clock nanoid save_ok heal_ok reheal_ok authorization body w
  = (Normal (RError 401 "unauthorized"), w)
  /\ put_card WRITE_TOKEN save_ok heal_ok authorization id body w
     = (Normal (RError 401 "unauthorized"), w)
  /\ delete_card WRITE_TOKEN save_ok heal_ok authorization id w
     = (RError 401 "unauthorized", w).
Proof.
  intros Hbad.
  assert (Hnone : requireToken WRITE_TOKEN authorization = None).
  { destruct (requireToken WRITE_TOKEN authorization) as [t|] eqn:Ht; [| done].
    apply requireToken_exact_bearer_aux in Ht as (Hne & Hauth & _).
    by destruct Hbad. }
  unfold post_cards, put_card, delete_card. by rewrite Hnone.
Qed.

(** X3.  The CORS callback lets every request through when no origin is
    configured, and otherwise lets through a request without an Origin
    header (or with an empty one) and a request whose Origin is the
    configured one, and no other. *)
Theorem cors_allows_iff (ORIGIN : jsstring) (origin : option jsstring) :
  cors_allows ORIGIN origin = true
  <-> ORIGIN = [] \/ origin = None \/ origin = Some [] \/ origin = Some ORIGIN.
Proof.
  unfold cors_allows, corsOrigins, includes.
  destruct origin as [o|]; [| by intuition].
  cbn [List.filter].
  destruct (decide (ORIGIN = [])) as [->|HO].
  { split; [by left |]. intros _. apply orb_true_iff. left. apply orb_true_r. }
  rewrite (bool_decide_eq_false_2 _ HO). cbn [negb length existsb Nat.eqb].
  rewrite !orb_false_r.
  destruct (decide (o = [])) as [->|Ho].
  { split; [| done]. intros _. right. right. by left. }
  rewrite (bool_decide_eq_false_2 _ Ho). cbn [orb].
  destruct (decide (ORIGIN = o)) as [->|Hne].
  { rewrite bool_decide_eq_true_2 by done. split; [| done]. intros _. by repeat right. }
  rewrite (bool_decide_eq_false_2 _ Hne).
  split; [discriminate |].
  intros [? | [? | [[= ?] | [= ?]]]]; congruence.
Qed.

(** X4.  Start-up creates the store file, holding the empty array, only
    when it is missing: an existing file is left as it is, corrupt or not;
    running it again changes nothing; and the first read after it returns
    no cards and logs nothing when the file had been missing. *)
Theorem startup_creates_only_when_missing (f : store_file) (lines : list logline)
    (heal_ok : bool) :
  startup (startup f) = startup f
  /\ (forall d, f = Present d -> startup f = Present d)
  /\ (f = Missing ->
      exists d, startup f = Present d
                /\ safeRead heal_ok (World d lines) = (Normal [], World d lines)).
Proof.
  split; [by destruct f |]. split.
  - by intros d ->.
  - intros ->. by exists (Stored []).
Qed.

(** ** More on [sanitizeCard] *)

Lemma new_card_dom now fresh raw f b e i l :
  dom (new_card now fresh raw f b e i l) = card_keys.
Proof.
  unfold new_card, card_keys. rewrite !dom_insert_L, dom_empty_L. set_solver.
Qed.

(** X5.  A card returned by [sanitizeCard] has the eleven properties of
    the object literal and no other: a property of the input that is not
    one of them never gets into the card. *)
Theorem sanitizeCard_keys now fresh raw (n : obj) :
  sanitizeCard now fresh raw = Normal (Some n) ->
  dom n = card_keys /\ forall k, k ∉ card_keys -> n !! k = None.
Proof.
  intros (s & b & e & i & l & _ & _ & _ & _ & _ & _ & _ & _ & ->)%sanitizeCard_inv.
  split; [apply new_card_dom |].
  intros k Hk. apply not_elem_of_dom. by rewrite new_card_dom.
Qed.

(** X6.  The [tags] of a sanitized card are always an array of at most ten
    elements: the first ten of the input's array, and the empty array when
    the input's [tags] is missing or not an array. *)
Theorem sanitizeCard_tags now fresh raw (n : obj) :
  sanitizeCard now fresh raw = Normal (Some n) ->
  exists l, n !! "tags" = Some (JArr l) /\ (length l <= 10)%nat
            /\ (forall l0, prop raw "tags" = Some (JArr l0) -> l = take 10 l0)
            /\ ((forall l0, prop raw "tags" <> Some (JArr l0)) -> l = []).
Proof.
  intros (s & b & e & i & l0 & _ & _ & _ & _ & _ & _ & _ & _ & ->)%sanitizeCard_inv.
  destruct (new_card_fields now fresh raw (normalizeText s) b e i l0)
    as (_ & _ & Htags & _).
  rewrite Htags. clear Htags s b e i l0.
  assert (Hother : (forall l0, prop raw "tags" <> Some (JArr l0)) ->
            match prop raw "tags" with
            | Some (JArr l) => JArr (take 10 l)
            | _ => JArr []
            end = JArr []).
  { intros Hno. destruct (prop raw "tags") as [[| | | |l0|]|]; try done.
    by destruct (Hno l0). }
  destruct (prop raw "tags") as [v|] eqn:Hp.
  - assert ((exists l0, v = JArr l0) \/ forall l0, v <> JArr l0) as [[l0 ->]|Hno].
    { destruct v; try (right; intros l0; discriminate). left. by eexists. }
    + exists (take 10 l0). split; [done |]. split; [rewrite length_take; lia |].
      split; [by intros l1 [= <-] |]. intros Hno. by destruct (Hno l0).
    + exists []. rewrite Hother by (intros l0 [= ->]; by apply (Hno l0)).
      split; [done |]. split; [simpl; lia |].
      split; [| done]. intros l0 [= ->]. by destruct (Hno l0).
  - exists []. split; [done |]. split; [simpl; lia |]. split; [| done].
    intros l0 [=].
Qed.

(** X7.  A sanitized card keeps the input's [id] exactly when that id is
    truthy, and otherwise (missing, [null], [false], [0], the empty
    string) gets the generated one; either way its id is truthy. *)
Theorem sanitizeCard_id now fresh raw (n : obj) :
  fresh <> [] ->
  sanitizeCard now fresh raw = Normal (Some n) ->
  exists v, n !! "id" = Some v /\ truthy (Some v) = true
            /\ (truthy (prop raw "id") = true -> prop raw "id" = Some v)
            /\ (truthy (prop raw "id") = false -> v = JStr fresh).
Proof.
  intros Hfresh (s & b & e & i & l & _ & _ & _ & _ & _ & _ & _ & _ & ->)%sanitizeCard_inv.
  rewrite new_card_id. eexists. split; [reflexivity |].
  split; [by apply or_default_truthy, truthy_JStr |].
  unfold or_default, or_else.
  destruct (truthy (prop raw "id")) eqn:Ht.
  - split; [| done]. intros _. by destruct (prop raw "id").
  - split; [done |]. by intros _.
Qed.

(** X8.  The [front] of a sanitized card is non-empty and neither starts
    nor ends with whitespace; so is its [back] unless the input gave
    [back] (or, failing that, [translation]) as an array. *)
Theorem sanitizeCard_texts_trimmed now fresh raw (n : obj) :
  sanitizeCard now fresh raw = Normal (Some n) ->
  exists f b,
    n !! "front" = Some (JStr f) /\ n !! "back" = Some (JStr b)
    /\ f <> [] /\ b <> []
    /\ (forall c r, f = c :: r -> is_ws c = false)
    /\ (forall c r, f = r ++ [c] -> is_ws c = false)
    /\ ((forall l, backIn raw <> Some (JArr l)) ->
        (forall c r, b = c :: r -> is_ws c = false)
        /\ (forall c r, b = r ++ [c] -> is_ws c = false)).
Proof.
  intros (s & b & e & i & l & _ & _ & Hbt & Hf & Hb & _ & _ & _ & ->)%sanitizeCard_inv.
  exists (normalizeText s), b.
  split; [apply new_card_front |]. split; [apply new_card_back |].
  split; [done |]. split; [done |].
  split; [intros c r; apply trim_no_leading_space |].
  split; [intros c r; apply trim_no_trailing_space |].
  intros Hnarr.
  assert (Ht : exists t, b = normalizeText t).
  { assert (Hb' : normalizeText <$> ToStringU (backIn raw) = Normal b).
    { rewrite <- Hbt. unfold backText.
      destruct (backIn raw) as [[| | | |l'|]|]; try done. by destruct (Hnarr l'). }
    destruct (ToStringU (backIn raw)) as [t|]; [| discriminate].
    exists t. by apply Normal_inj in Hb'. }
  destruct Ht as [t ->].
  split; [intros c r; apply trim_no_leading_space |
          intros c r; apply trim_no_trailing_space].
Qed.

(** ** [POST /api/cards]: what is thrown, refused and counted *)

Lemma throws_on_nonnull (c : JVal) :
  c <> JNull ->
  throws_on c
  = negb (returns (texts_of c)) || (has_texts c && negb (returns (numbers_of c))).
Proof. by destruct c. Qed.

Lemma accepts_nonnull (c : JVal) :
  c <> JNull -> accepts c = has_texts c && returns (numbers_of c).
Proof. by destruct c. Qed.

(** What [sanitizeCard] does with an item depends neither on the clock nor
    on the id generator. *)
Lemma sanitizeCard_cases now fresh (c : JVal) :
  (throws_on c = true /\ accepts c = false
   /\ sanitizeCard now fresh c = Throw TypeError)
  \/ (throws_on c = false /\ accepts c = true
      /\ exists n, sanitizeCard now fresh c = Normal (Some n))
  \/ (throws_on c = false /\ accepts c = false
      /\ sanitizeCard now fresh c = Normal None).
Proof.
  assert (c = JNull \/ c <> JNull) as [-> | Hc]
    by (destruct c; (by left) || (by right)); [by left |].
  rewrite (throws_on_nonnull _ Hc), (accepts_nonnull _ Hc),
    (sanitizeCard_nonnull _ _ _ Hc).
  unfold has_texts, texts_of, numbers_of.
  destruct (ToStringU (frontIn c)) as [s|e1] eqn:H1; cbn.
  2:{ left. by rewrite (ToStringU_throws _ _ H1). }
  destruct (backText (backIn c)) as [b|e1] eqn:H2; cbn.
  2:{ left. by rewrite (backText_throws _ _ H2). }
  destruct (decide (normalizeText s = [])) as [E|E].
  { rewrite !(bool_decide_eq_true_2 _ E). cbn. by right; right. }
  rewrite !(bool_decide_eq_false_2 _ E).
  destruct (decide (b = [])) as [E'|E'].
  { rewrite !(bool_decide_eq_true_2 _ E'). cbn. by right; right. }
  rewrite !(bool_decide_eq_false_2 _ E'). cbn.
  destruct (ToNumber (easeIn c)) as [x|e1] eqn:H3; cbn.
  2:{ left. by rewrite (ToNumber_throws _ _ H3). }
  destruct (ToNumber (intervalIn c)) as [y|e1] eqn:H4; cbn.
  2:{ left. by rewrite (ToNumber_throws _ _ H4). }
  destruct (ToNumber (lapsesIn c)) as [z|e1] eqn:H5; cbn.
  2:{ left. by rewrite (ToNumber_throws _ _ H5). }
  right; left. split; [done |]. split; [done |]. by eexists.
Qed.

Lemma sanitize_from_throws clock nanoid i (incoming : list JVal) :
  (exists c, c ∈ incoming /\ throws_on c = true) ->
  sanitize_from clock nanoid i incoming = Throw TypeError.
Proof.
  revert i. induction incoming as [|c rest IH]; intros i (c' & Hin & Hthrows).
  - by apply elem_of_nil in Hin.
  - simpl.
    destruct (sanitizeCard_cases (clock i) (nanoid i) c)
      as [(_ & _ & ->) | [(Hno & _ & n & ->) | (Hno & _ & ->)]]; [done | |].
    all: apply elem_of_cons in Hin as [<- | Hin]; [congruence |].
    all: by rewrite IH by (by exists c').
Qed.

Lemma sanitize_from_no_throw clock nanoid i (incoming : list JVal) :
  (forall c, c ∈ incoming -> throws_on c = false) ->
  exists rs, sanitize_from clock nanoid i incoming = Normal rs
             /\ length (omap id rs) = length (List.filter accepts incoming).
Proof.
  revert i. induction incoming as [|c rest IH]; intros i Hno; simpl.
  - by exists [].
  - destruct (IH (S i)) as (rs & -> & Hlen);
      [intros c' Hc'; apply Hno; by apply list_elem_of_further |].
    pose proof (Hno c (list_elem_of_here _ _)) as Hc.
    destruct (sanitizeCard_cases (clock i) (nanoid i) c)
      as [(Hyes & _) | [(_ & Hacc & n & ->) | (_ & Hacc & ->)]]; [congruence | |].
    + eexists. split; [reflexivity |].
      change (S (length (omap id rs))
              = length (if accepts c then c :: List.filter accepts rest
                        else List.filter accepts rest)).
      by rewrite Hacc, Hlen.
    + eexists. split; [reflexivity |].
      change (length (omap id rs)
              = length (if accepts c then c :: List.filter accepts rest
                        else List.filter accepts rest)).
      by rewrite Hacc, Hlen.
Qed.

(** X10.  [sanitizeCard] throws a TypeError, and nothing else, exactly on
    [null], on an item whose [front] or [back] cannot be converted to
    text, and on an item with both texts whose [ease], [interval] or
    [lapses] cannot be converted to a number; an authorized POST with
    such an item in its body throws the TypeError before anything is
    read or written, whatever the other items are. *)
Theorem post_throwing_item_throws (WRITE_TOKEN : jsstring)
    (clock nanoid : nat -> jsstring) (save_ok heal_ok reheal_ok : bool)
    (authorization : option jsstring) (body : JVal) (w : world) :
  requireToken WRITE_TOKEN authorization <> None ->
  (exists c, c ∈ incoming_of body /\ throws_on c = true) ->
  (forall now fresh c e,
     sanitizeCard now fresh c = Throw e <-> throws_on c = true /\ e = TypeError)
  /\ throws_on JNull = true
  /\ post_cards WRITE_TOKEN clock nanoid save_ok heal_ok reheal_ok authorization body w
     = (Throw TypeError, w).
Proof.
  intros Htok Hin. split; [| split; [done |]].
  - intros now fresh c e.
    destruct (sanitizeCard_cases now fresh c)
      as [(Hyes & _ & ->) | [(Hno & _ & n & ->) | (Hno & _ & ->)]].
    + split; [by intros [= <-] | by intros [_ ->]].
    + split; [discriminate | intros [? _]; congruence].
    + split; [discriminate | intros [? _]; congruence].
  - unfold post_cards.
    destruct (requireToken WRITE_TOKEN authorization); [| done].
    fold (incoming_of body). by rewrite sanitize_from_throws.
Qed.

(** X11.  An authorized POST in which [sanitizeCard] throws on no item and
    returns [null] on every item (an empty array included) is answered
    400 [invalid_payload] and nothing is read, written or logged: even a
    corrupt store file is left as it is. *)
Theorem post_nothing_valid (WRITE_TOKEN : jsstring)
    (clock nanoid : nat -> jsstring) (save_ok heal_ok reheal_ok : bool)
    (authorization : option jsstring) (body : JVal) (w : world) :
  requireToken WRITE_TOKEN authorization <> None ->
  (forall c, c ∈ incoming_of body -> throws_on c = false /\ accepts c = false) ->
  post_cards WRITE_TOKEN clock nanoid save_ok heal_ok reheal_ok authorization body w
  = (Normal (RError 400 "invalid_payload"), w).
Proof.
  intros Htok Hall. unfold post_cards.
  destruct (requireToken WRITE_TOKEN authorization); [| done].
  fold (incoming_of body).
  destruct (sanitize_from_no_throw clock nanoid 0 (incoming_of body))
    as (rs & -> & Hlen).
  { intros c Hin. by destruct (Hall _ Hin). }
  assert (Hnone : List.filter accepts (incoming_of body) = []).
  { clear Hlen. induction (incoming_of body) as [|c l IH]; [done |]. simpl.
    destruct (Hall c) as [_ ->]; [apply list_elem_of_here |].
    apply IH. intros c' Hc'. apply Hall. by apply list_elem_of_further. }
  rewrite Hnone in Hlen. by destruct (omap id rs).
Qed.

(** X12.  An authorized POST on whose items [sanitizeCard] does not throw
    and with at least one item that passes is answered [ok], unless the
    file does not parse and both recovery writes fail: [added] is the
    number of items that passed (the others are dropped without notice),
    and [total] is the number of cards in the file after the request.
    In the excepted case the request throws the error of the second
    recovery write. *)
Theorem post_added_counts_valid_items (WRITE_TOKEN : jsstring)
    (clock nanoid : nat -> jsstring) (save_ok heal_ok reheal_ok : bool)
    (authorization : option jsstring) (body : JVal) (w : world) :
  requireToken WRITE_TOKEN authorization <> None ->
  (forall c, c ∈ incoming_of body -> throws_on c = false) ->
  (exists c, c ∈ incoming_of body /\ accepts c = true) ->
  ((disk w = Corrupt -> heal_ok = true \/ reheal_ok = true) ->
   exists cards,
     disk (post_cards WRITE_TOKEN clock nanoid save_ok heal_ok reheal_ok
             authorization body w).2 = Stored cards
     /\ (post_cards WRITE_TOKEN clock nanoid save_ok heal_ok reheal_ok
           authorization body w).1
        = Normal (RAdded (length (List.filter accepts (incoming_of body)))
                         (length cards)))
  /\ (disk w = Corrupt -> heal_ok = false -> reheal_ok = false ->
      (post_cards WRITE_TOKEN clock nanoid save_ok heal_ok reheal_ok
         authorization body w).1 = Throw IOError
      /\ disk (post_cards WRITE_TOKEN clock nanoid save_ok heal_ok reheal_ok
                 authorization body w).2 = Corrupt).
Proof.
  intros Htok Hno (c & Hc & Hacc). unfold post_cards.
  destruct (requireToken WRITE_TOKEN authorization); [| done].
  fold (incoming_of body).
  destruct (sanitize_from_no_throw clock nanoid 0 (incoming_of body) Hno)
    as (rs & -> & Hlen).
  assert (Hpos : (0 < length (List.filter accepts (incoming_of body)))%nat).
  { clear Hlen Hno. induction (incoming_of body) as [|c' l IH].
    - by apply elem_of_nil in Hc.
    - simpl. apply elem_of_cons in Hc as [<- | Hin].
      + rewrite Hacc. simpl. lia.
      + specialize (IH Hin). destruct (accepts c'); simpl; lia. }
  rewrite <- Hlen in *.
  destruct (omap id rs) as [|n ns] eqn:Hom; [simpl in Hpos; lia |].
  unfold enqueueWrite, safeWrite, safeRead.
  destruct w as [[|cards] lines]; destruct save_ok, heal_ok, reheal_ok; simpl;
    (split; [intros Hheal | intros Hd Hh Hr]); try done;
    try (eexists; split; reflexivity);
    destruct Hheal as [?|?]; done.
Qed.

(** ** The upsert of a batch *)

Lemma has_id_index (cards : list obj) (k : jsval) :
  map_get (index_by_id cards) k = None <-> has_id cards k = false.
Proof.
  pose proof (index_by_id_get cards k) as Hidx. unfold has_id.
  destruct (map_get (index_by_id cards) k) as [i|]; simpl in Hidx.
  - destruct Hidx as ((c & Hc & Hsame) & _). split; [done |].
    intros Hex. assert (existsb (fun c : obj => same_value_zero (c !! "id") k) cards = true);
      [| congruence].
    apply existsb_exists. exists c. split; [| done].
    apply list_elem_of_In. by eapply list_elem_of_lookup_2.
  - split; [| done]. intros _.
    destruct (existsb _ cards) eqn:Hex; [| done].
    apply existsb_exists in Hex as (c & Hin & Hsame).
    apply list_elem_of_In, list_elem_of_lookup in Hin as [j Hj].
    by rewrite (Hidx j c Hj) in Hsame.
Qed.

Lemma upsert_fold_length_eq (idx : jsmap) (ns l : list obj) :
  length (fold_left (upsert_step idx) ns l)
  = (length l
     + length (List.filter
                 (fun n : obj => match map_get idx (n !! "id") with
                                 | Some _ => false
                                 | None => true
                                 end) ns))%nat.
Proof.
  revert l. induction ns as [|n ns IH]; intros l; simpl; [lia |].
  rewrite IH. unfold upsert_step.
  destruct (map_get idx (n !! "id")) as [i|]; simpl.
  - by rewrite length_insert.
  - rewrite length_app. simpl. lia.
Qed.

(** X13.  After the upsert of a batch the collection is longer by the
    number of items whose id no card had before the batch: ids are looked
    up in the index built beforehand, so two items of one batch with the
    same new id are both appended. *)
Theorem upsert_batch_length (sanitized cards : list obj) :
  length (upsert_mutator sanitized cards)
  = (length cards + length (new_items cards sanitized))%nat.
Proof.
  unfold upsert_mutator, new_items. rewrite upsert_fold_length_eq. f_equal. f_equal.
  apply filter_ext. intros n.
  destruct (map_get (index_by_id cards) (n !! "id")) as [i|] eqn:Hget.
  - destruct (has_id cards (n !! "id")) eqn:Hhas; [done |].
    apply has_id_index in Hhas. congruence.
  - apply has_id_index in Hget. by rewrite Hget.
Qed.

Lemma upsert_fold_preserves (idx : jsmap) (ns l : list obj) i (P : obj -> Prop) :
  (i < length l)%nat ->
  (forall c, l !! i = Some c -> P c) ->
  (forall n old, n ∈ ns -> map_get idx (n !! "id") = Some i -> P old ->
                 P (spread old n)) ->
  forall c, fold_left (upsert_step idx) ns l !! i = Some c -> P c.
Proof.
  revert l. induction ns as [|n ns IH]; intros l Hi Hl Hstep c; simpl; [apply Hl |].
  apply IH.
  - pose proof (upsert_step_length idx l n). lia.
  - intros c'. destruct (decide (map_get idx (n !! "id") = Some i)) as [Hhit|Hmiss].
    + destruct (lookup_lt_is_Some_2 _ _ Hi) as [old Hold].
      rewrite (upsert_step_hit idx l n old i Hhit Hold). intros [= <-].
      apply Hstep; [apply list_elem_of_here | done | by apply Hl].
    + rewrite upsert_step_other by done. apply Hl.
  - intros n' old Hn'. apply Hstep. by apply list_elem_of_further.
Qed.

(** X14.  The upsert of a batch leaves alone, at its index, every card
    whose id no item of the batch has. *)
Theorem upsert_leaves_other_cards (sanitized cards : list obj) i (c : obj) :
  cards !! i = Some c ->
  (forall n, n ∈ sanitized -> same_value_zero (c !! "id") (n !! "id") = false) ->
  upsert_mutator sanitized cards !! i = Some c.
Proof.
  intros Hc Hother. unfold upsert_mutator.
  rewrite upsert_fold_other; [done | by apply lookup_lt_Some in Hc |].
  intros n Hn Hget.
  pose proof (index_by_id_get cards (n !! "id")) as Hidx.
  rewrite Hget in Hidx. simpl in Hidx.
  destruct Hidx as ((c' & Hc' & Hsame) & _).
  rewrite Hc in Hc'. injection Hc' as <-.
  by rewrite (Hother n Hn) in Hsame.
Qed.

(** X15.  The upsert of a batch never moves or removes a card: every index
    of the collection still holds a card, and that card still has the id
    it had. *)
Theorem upsert_keeps_ids_in_place (sanitized cards : list obj) i (c : obj) :
  cards !! i = Some c ->
  exists c', upsert_mutator sanitized cards !! i = Some c'
             /\ c' !! "id" = c !! "id".
Proof.
  intros Hc. unfold upsert_mutator.
  assert (Hi : (i < length cards)%nat) by (by apply lookup_lt_Some in Hc).
  destruct (lookup_lt_is_Some_2 (fold_left (upsert_step (index_by_id cards))
                                   sanitized cards) i) as [c' Hc'].
  { pose proof (upsert_fold_length (index_by_id cards) sanitized cards). lia. }
  exists c'. split; [done |].
  apply (upsert_fold_preserves (index_by_id cards) sanitized cards i
           (fun x : obj => x !! "id" = c !! "id")) with (c := c'); try done.
  - intros c0. rewrite Hc. by intros [= <-].
  - intros n old _ Hget Hold.
    pose proof (index_by_id_get cards (n !! "id")) as Hidx.
    rewrite Hget in Hidx. simpl in Hidx.
    destruct Hidx as ((c0 & Hc0 & Hsame) & _).
    rewrite Hc in Hc0. injection Hc0 as <-.
    apply same_value_zero_eq in Hsame.
    rewrite spread_lookup. rewrite <- Hsame. by destruct (c !! "id").
Qed.

(** X16.  A property an existing card has beyond the eleven of
    [sanitizeCard] (one a PUT added, say) survives every upsert of items
    that came out of [sanitizeCard]. *)
Theorem upsert_keeps_extra_fields (sanitized cards : list obj) i (c : obj)
    (k : string) :
  (forall n, n ∈ sanitized ->
             exists now fresh raw, sanitizeCard now fresh raw = Normal (Some n)) ->
  cards !! i = Some c -> k ∉ card_keys ->
  exists c', upsert_mutator sanitized cards !! i = Some c'
             /\ c' !! k = c !! k.
Proof.
  intros Hsan Hc Hk. unfold upsert_mutator.
  assert (Hi : (i < length cards)%nat) by (by apply lookup_lt_Some in Hc).
  destruct (lookup_lt_is_Some_2 (fold_left (upsert_step (index_by_id cards))
                                   sanitized cards) i) as [c' Hc'].
  { pose proof (upsert_fold_length (index_by_id cards) sanitized cards). lia. }
  exists c'. split; [done |].
  apply (upsert_fold_preserves (index_by_id cards) sanitized cards i
           (fun x : obj => x !! k = c !! k)) with (c := c'); try done.
  - intros c0. rewrite Hc. by intros [= <-].
  - intros n old Hn _ Hold.
    destruct (Hsan n Hn) as (now & fresh & raw & Hs).
    apply sanitizeCard_inv in Hs
      as (s & b & e & i0 & l & _ & _ & _ & _ & _ & _ & _ & _ & ->).
    rewrite spread_lookup.
    assert (Hnone : new_card now fresh raw (normalizeText s) b e i0 l !! k = None).
    { apply not_elem_of_dom. by rewrite new_card_dom. }
    by rewrite Hnone.
Qed.

(** ** More on patching and deleting *)

Lemma has_id_is_dec id (cards : list obj) :
  (exists c, c ∈ cards /\ id_is id c = true)
  \/ (forall c, c ∈ cards -> id_is id c = false).
Proof.
  induction cards as [|c cards [(c' & Hin & Hid) | Hnone]].
  - right. intros c Hc. by apply elem_of_nil in Hc.
  - left. exists c'. split; [by apply list_elem_of_further | done].
  - destruct (id_is id c) eqn:Hc.
    + left. exists c. split; [apply list_elem_of_here | done].
    + right. intros c' [-> | Hin]%elem_of_cons; [done | by apply Hnone].
Qed.

(** X17.  Deleting by id removes every card with that id, not only the
    first, and keeps all the others; [removed] is set exactly when some
    card had the id; and deleting the same id from the result removes
    nothing more. *)
Theorem delete_mutator_removes_all (id : jsstring) (cards : list obj) :
  (forall c, c ∈ (delete_mutator id cards).1 <-> c ∈ cards /\ id_is id c = false)
  /\ ((delete_mutator id cards).2 = true <-> exists c, c ∈ cards /\ id_is id c = true)
  /\ delete_mutator id (delete_mutator id cards).1
     = ((delete_mutator id cards).1, false).
Proof.
  assert (Hmem : forall c, c ∈ (delete_mutator id cards).1
                           <-> c ∈ cards /\ id_is id c = false).
  { intros c. unfold delete_mutator. simpl.
    rewrite !list_elem_of_In, filter_In, negb_true_iff. done. }
  split; [exact Hmem |]. split.
  - split; [| apply delete_mutator_present].
    intros Hflag. destruct (has_id_is_dec id cards) as [Hex | Hnone]; [done |].
    rewrite (delete_mutator_absent _ _ Hnone) in Hflag. discriminate.
  - apply delete_mutator_absent. intros c Hc. by apply Hmem in Hc as [_ ?].
Qed.

Lemma findIndex_first (p : obj -> bool) (cards : list obj) i :
  findIndex p cards = Some i ->
  forall j c, (j < i)%nat -> cards !! j = Some c -> p c = false.
Proof.
  revert i. induction cards as [|c0 cards IH]; simpl; [discriminate |].
  intros i. destruct (p c0) eqn:Hp.
  - intros [= <-] j c Hj. lia.
  - destruct (findIndex p cards) as [i'|]; simpl; [| discriminate].
    intros [= <-] j c Hj. destruct j as [|j]; simpl.
    + by intros [= <-].
    + apply (IH i' eq_refl). lia.
Qed.

(** X18.  Patching by id keeps the length of the collection and changes
    one card at most: the first that has the id, even when several share
    it; [updated] is set exactly when some card has the id. *)
Theorem put_mutator_changes_first_only (id : jsstring) (patch : obj)
    (cards : list obj) :
  length (put_mutator id patch cards).1 = length cards
  /\ ((put_mutator id patch cards).2 = true
      <-> exists c, c ∈ cards /\ id_is id c = true)
  /\ forall i, findIndex (id_is id) cards = Some i ->
        (forall j c, (j < i)%nat -> cards !! j = Some c -> id_is id c = false)
        /\ (forall j, j <> i -> (put_mutator id patch cards).1 !! j = cards !! j)
        /\ exists c, cards !! i = Some c /\ id_is id c = true
                     /\ (put_mutator id patch cards).1 !! i
                        = Some (mergePatch c patch).
Proof.
  split; [| split].
  - unfold put_mutator. destruct (findIndex (id_is id) cards); simpl; [| done].
    apply length_insert.
  - split; [| apply put_mutator_present].
    intros Hflag. destruct (has_id_is_dec id cards) as [Hex | Hnone]; [done |].
    rewrite (put_mutator_absent _ _ _ Hnone) in Hflag. discriminate.
  - intros i Hfind. split; [by apply findIndex_first |].
    unfold put_mutator. rewrite Hfind. simpl.
    destruct (findIndex_Some _ _ _ Hfind) as (c & Hc & Hid). split.
    + intros j Hj. by apply list_lookup_insert_ne.
    + exists c. rewrite Hc. simpl. repeat split; try done.
      apply list_lookup_insert_eq. by apply lookup_lt_Some in Hc.
Qed.

(** X19.  The card a PUT stores is the old card with the fields of the
    body laid over it: a field the body lacks is kept, a field it has is
    taken as it is, except [front], stored as the normalized text of the
    value, and [back], stored as the joined array or the normalized
    text; nothing checks that these texts are non-empty.  (A PUT stores
    a card only when the conversions of [front] and [back] return.) *)
Theorem mergePatch_fields (c : obj) (body : JVal) (patch : obj) (k : string) :
  normalizePatch body = Normal patch ->
  Normal (mergePatch c patch !! k)
  = match prop body k with
    | None => Normal (c !! k)
    | Some v =>
        if bool_decide (k = "front")
        then (fun s => Some (JStr (normalizeText s))) <$> ToString v
        else if bool_decide (k = "back")
        then (fun s => Some (JStr s)) <$> backText (Some v)
        else Normal (Some v)
    end.
Proof.
  intros Hp. unfold mergePatch. rewrite spread_lookup.
  pose proof (normalizePatch_lookup body patch k Hp) as Hk.
  destruct (prop body k) as [v|].
  - rewrite <- Hk. destruct (patch !! k) eqn:Hpk; [done |].
    exfalso. clear -Hk.
    repeat case_bool_decide;
      try (destruct (ToString v)); try (destruct (backText (Some v))); done.
  - apply Normal_inj in Hk. by rewrite Hk.
Qed.

(** ** Reading, and requests one after another *)




Lemma id_is_json id (c : obj) : id_is id (json_roundtrip <$> c) = id_is id c.
Proof.
  unfold id_is. rewrite lookup_fmap.
  destruct (c !! "id") as [[| |n| | |]|]; simpl; try done.
  by destruct (num_finite n).
Qed.

(** After a DELETE whose save is not refused, the file does not parse or
    no card in it has the id. *)
Lemma delete_leaves_no_id (WRITE_TOKEN : jsstring) (authorization : option jsstring)
    (heal_ok : bool) (id : jsstring) (w : world) :
  requireToken WRITE_TOKEN authorization <> None ->
  disk (delete_card WRITE_TOKEN true heal_ok authorization id w).2 = Corrupt
  \/ exists cards,
       disk (delete_card WRITE_TOKEN true heal_ok authorization id w).2 = Stored cards
       /\ forall c, c ∈ cards -> id_is id c = false.
Proof.
  intros Htok. unfold delete_card, enqueueWrite, safeWrite.
  destruct (requireToken WRITE_TOKEN authorization); [| done].
  destruct (safeRead heal_ok w) as [[current|e] w1] eqn:Hread.
  - right.
    assert (Hnext : (delete_mutator id current).1
                    = List.filter (fun c => negb (id_is id c)) current)
      by reflexivity.
    destruct (delete_mutator id current) as [next flag]. simpl in Hnext. subst next.
    exists (json_cards (List.filter (fun c => negb (id_is id c)) current)).
    split; [by destruct flag |].
    intros c Hc. unfold json_cards in Hc.
    apply list_elem_of_fmap in Hc as (c0 & -> & Hc0).
    rewrite id_is_json.
    apply list_elem_of_In, filter_In in Hc0 as [_ Hne]. by apply negb_true_iff.
  - left. apply safeRead_throws in Hread as (_ & _ & _ & Hd & _). exact Hd.
Qed.

(** A mutator that finds nothing on the empty collection and on [cards]
    leaves its flag unset, whatever the read and the save do. *)
Lemma enqueueWrite_flag_unset (save_ok heal_ok : bool)
    (mutator : list obj -> list obj * bool) (w : world) :
  (disk w = Corrupt \/ exists cards, disk w = Stored cards /\ (mutator cards).2 = false) ->
  (mutator []).2 = false ->
  default false (enqueueWrite save_ok heal_ok (fun cards => Normal (mutator cards)) w).1
  = false.
Proof.
  intros Hw Hnil. unfold enqueueWrite, safeRead, safeWrite.
  destruct Hw as [-> | (cards & -> & Hcards)].
  - destruct heal_ok; [| done].
    destruct (mutator []) as [next flag]. simpl in Hnil. subst. by destruct save_ok.
  - destruct (mutator cards) as [next flag]. simpl in Hcards. subst. by destruct save_ok.
Qed.

(** X23.  Once a DELETE has run with a save that is not refused, no
    stored card has the id: deleting the same id again is answered 404
    [not_found], and so is patching it, unless the patch cannot be
    normalized and the PUT throws. *)
Theorem delete_then_not_found (WRITE_TOKEN : jsstring)
    (authorization : option jsstring) (save_ok heal_ok later_heal_ok : bool)
    (id : jsstring) (body : JVal) (w : world) :
  requireToken WRITE_TOKEN authorization <> None ->
  (delete_card WRITE_TOKEN save_ok later_heal_ok authorization id
     (delete_card WRITE_TOKEN true heal_ok authorization id w).2).1
  = RError 404 "not_found"
  /\ (put_card WRITE_TOKEN save_ok later_heal_ok authorization id body
        (delete_card WRITE_TOKEN true heal_ok authorization id w).2).1
     = match normalizePatch body with
       | Normal _ => Normal (RError 404 "not_found")
       | Throw e => Throw e
       end.
Proof.
  intros Htok.
  pose proof (delete_leaves_no_id WRITE_TOKEN authorization heal_ok id w Htok) as Hafter.
  set (w1 := (delete_card WRITE_TOKEN true heal_ok authorization id w).2) in *.
  clearbody w1.
  unfold delete_card, put_card.
  destruct (requireToken WRITE_TOKEN authorization); [| done]. split.
  - pose proof (enqueueWrite_flag_unset save_ok later_heal_ok (delete_mutator id) w1)
      as Hflag.
    destruct (enqueueWrite save_ok later_heal_ok _ w1) as [removed w2].
    simpl in Hflag. rewrite Hflag; [done | | done].
    destruct Hafter as [? | (cards & ? & Hnone)]; [by left |].
    right. exists cards. split; [done |].
    exact (f_equal snd (delete_mutator_absent id cards Hnone)).
  - destruct (normalizePatch body) as [patch|e]; [| done].
    pose proof (enqueueWrite_flag_unset save_ok later_heal_ok (put_mutator id patch) w1)
      as Hflag.
    destruct (enqueueWrite save_ok later_heal_ok _ w1) as [updated w2].
    simpl in Hflag. rewrite Hflag; [done | | done].
    destruct Hafter as [? | (cards & ? & Hnone)]; [by left |].
    right. exists cards. split; [done |].
    exact (f_equal snd (put_mutator_absent id patch cards Hnone)).
Qed.

(** ** The file under the write chain *)









Lemma chain_work_le (c : chain) : (chain_work c <= 4 * length (ch_units c))%nat.
Proof.
  unfold chain_work. induction (ch_units c) as [|u units IH]; simpl; [lia |].
  assert (stage_work u.2 <= 4)%nat by (destruct (u.2); simpl; lia). lia.
Qed.

(** X25.  A unit takes at most four steps and is never started again: a
    run of [n] steps of the units from a chain of [k] units has
    [n <= 4 * k], however the steps succeed or fail. *)
Theorem unit_steps_bounded (n : nat) (c c' : chain) :
  unit_steps n c c' -> (n <= 4 * length (ch_units c))%nat.
Proof.
  intros Hsteps.
  assert (Hwork : (n + chain_work c' <= chain_work c)%nat).
  { revert c Hsteps. induction n as [|n IH]; intros c; simpl.
    - intros ->. lia.
    - intros (c1 & Hstep & Hrest). specialize (IH c1 Hrest).
      pose proof (unit_step_work _ _ Hstep). lia. }
  pose proof (chain_work_le c). lia.
Qed.

End MoreProperties.

(** ** Concrete runs *)



(** C2, at the failing input.  The store holds [card_abc]; an authorized
    [PUT /api/cards/abc] with body [{front: ""}] is answered [ok] and the
    card is stored with an empty [front], while the same text sent through
    [POST /api/cards] is refused as [invalid_payload]. *)
Lemma put_stores_empty_front :
  put_card secret true true bearer (lit "abc") (JObj {[ "front" := JStr [] ]})
           (World (Stored [card_abc]) [])
  = (Normal (ROkId (lit "abc")),
     World (Stored [<["front" := JStr []]> card_abc]) [])
  /\ field_at [<["front" := JStr []]> card_abc] 0 "front" = Some (JStr [])
  /\ post_cards secret (fun _ => T1) (fun _ => fresh_id) true true true bearer
                (JObj {[ "id" := JStr (lit "abc"); "front" := JStr [];
                         "back" := JStr (lit "Haus") ]})
                (World (Stored [card_abc]) [])
     = (Normal (RError 400 "invalid_payload"), World (Stored [card_abc]) []).
Proof. repeat split; reflexivity. Qed.

(** C3, counterexample.  The patch [{created_at: T1}] has no [id] field,
    and the merged card no longer has the [created_at] of the card. *)
Lemma patch_overwrites_created_at :
  prop patch_created_at "id" = None
  /\ findIndex (id_is (lit "abc")) [card_abc] = Some 0%nat
  /\ card_abc !! "created_at" = Some (JStr T0)
  /\ normalizePatch patch_created_at = Normal {[ "created_at" := JStr T1 ]}
  /\ field_at (put_mutator (lit "abc") {[ "created_at" := JStr T1 ]} [card_abc]).1
              0 "created_at" = Some (JStr T1)
  /\ mergePatch card_abc {[ "created_at" := JStr T1 ]} !! "created_at"
     <> card_abc !! "created_at".
Proof.
  repeat split.
  change (Some (JStr T1) <> Some (JStr T0)).
  by apply JStr_neq.
Qed.

(** C3, witness. *)
Lemma patch_keeps_id_and_created_at_witness :
  findIndex (id_is (lit "abc")) [card_abc] = Some 0%nat
  /\ [card_abc] !! 0%nat = Some card_abc
  /\ prop patch_interval "id" = None
  /\ prop patch_interval "created_at" = None
  /\ normalizePatch patch_interval = Normal {[ "interval" := JNum (Half 6) ]}
  /\ (put_mutator (lit "abc") {[ "interval" := JNum (Half 6) ]} [card_abc]
      = (<[0%nat := mergePatch card_abc {[ "interval" := JNum (Half 6) ]}]> [card_abc],
         true)
      /\ mergePatch card_abc {[ "interval" := JNum (Half 6) ]} !! "id"
         = card_abc !! "id"
      /\ mergePatch card_abc {[ "interval" := JNum (Half 6) ]} !! "created_at"
         = card_abc !! "created_at").
Proof.
  assert (H1 : findIndex (id_is (lit "abc")) [card_abc] = Some 0%nat) by reflexivity.
  assert (H2 : [card_abc] !! 0%nat = Some card_abc) by reflexivity.
  assert (H3 : prop patch_interval "id" = None) by reflexivity.
  assert (H4 : prop patch_interval "created_at" = None) by reflexivity.
  assert (H5 : normalizePatch patch_interval = Normal {[ "interval" := JNum (Half 6) ]})
    by reflexivity.
  repeat (split; [assumption |]).
  exact (patch_keeps_id_and_created_at (lit "abc") patch_interval
           {[ "interval" := JNum (Half 6) ]} [card_abc] 0%nat card_abc H1 H2 H3 H4 H5).
Defined.

(** C4, counterexample.  [" =a"] is trimmed to ["=a"] by the first pass
    and stripped to ["a"] by the second, although the id was supplied; and
    [" ="] is accepted as ["="] by the first pass and rejected by the
    second. *)
Lemma sanitize_twice_differs :
  sanitizeCard T0 fresh_id raw_space_eq = Normal (Some card_space_eq)
  /\ prop raw_space_eq "id" = Some (JStr (lit "abc"))
  /\ card_space_eq !! "front" = Some (JStr (lit "=a"))
  /\ sanitized (sanitizeCard T1 fresh_id (JObj card_space_eq)) !! "front"
     = Some (JStr (lit "a"))
  /\ sanitizeCard T1 fresh_id (JObj card_space_eq) <> Normal (Some card_space_eq)
  /\ sanitizeCard T0 fresh_id raw_only_eq = Normal (Some card_only_eq)
  /\ sanitizeCard T1 fresh_id (JObj card_only_eq) = Normal None.
Proof.
  repeat split.
  intros Heq.
  apply (f_equal (fun r => sanitized r !! "front")) in Heq.
  change (Some (JStr (lit "a")) = Some (JStr (lit "=a"))) in Heq.
  by apply JStr_neq in Heq.
Qed.

(** C4, witness. *)
Lemma sanitizeCard_twice_witness :
  T1 <> [] /\ fresh_id <> []
  /\ sanitizeCard T1 fresh_id raw_abc = Normal (Some item_abc)
  /\ exists f b,
       item_abc !! "front" = Some (JStr f) /\ item_abc !! "back" = Some (JStr b)
       /\ sanitizeCard T0 (lit "other") (JObj item_abc)
          = (if bool_decide (normalizeText f = []) || bool_decide (normalizeText b = [])
             then Normal None
             else Normal (Some (<["front" := JStr (normalizeText f)]>
                                 (<["back" := JStr (normalizeText b)]> item_abc))))
       /\ (sanitizeCard T0 (lit "other") (JObj item_abc) = Normal (Some item_abc)
           <-> normalizeText f = f /\ normalizeText b = b).
Proof.
  assert (H1 : T1 <> []) by discriminate.
  assert (H2 : fresh_id <> []) by discriminate.
  assert (H3 : sanitizeCard T1 fresh_id raw_abc = Normal (Some item_abc))
    by (reflexivity).
  repeat apply conj; try assumption.
  exact (sanitizeCard_twice T1 fresh_id T0 (lit "other") raw_abc item_abc H1 H2 H3).
Defined.

(** C6, counterexample.  A [back] given as the sequence [["= b "]] is
    stored as ["= b "]: neither the leading ['='] nor the whitespace is
    stripped.  On the item [null] the function throws instead of returning
    [null], and so it does on an item whose [back] is the object
    [{"toString": 0}], and on one with both texts whose [ease] is that
    object. *)
Lemma sanitize_keeps_joined_back :
  sanitizeCard T0 fresh_id JNull = Throw TypeError
  /\ sanitized (sanitizeCard T0 fresh_id raw_back_array) !! "back"
     = Some (JStr (lit "= b "))
  /\ strip_eq_run_and_space (join (lit " / ") [lit "= b "]) = lit "b"
  /\ sanitized (sanitizeCard T0 fresh_id raw_back_array) !! "back"
     <> Some (JStr (strip_eq_run_and_space (join (lit " / ") [lit "= b "])))
  /\ sanitizeCard T0 fresh_id raw_back_unconvertible = Throw TypeError
  /\ sanitizeCard T0 fresh_id raw_ease_unconvertible = Throw TypeError.
Proof.
  split; [reflexivity |]. split; [reflexivity |]. split; [reflexivity |].
  split; [| split; reflexivity].
  change (Some (JStr (lit "= b ")) <> Some (JStr (lit "b"))).
  by apply JStr_neq.
Qed.

(** C6, witness. *)
Lemma sanitizeCard_text_fields_witness :
  raw_abc <> JNull
  /\ stripped_front raw_abc = Normal (lit "casa")
  /\ joined_or_stripped_back raw_abc = Normal (lit "Haus")
  /\ (sanitizeCard T1 fresh_id raw_abc = Normal None
      <-> lit "casa" = [] \/ lit "Haus" = [])
  /\ (forall card, sanitizeCard T1 fresh_id raw_abc = Normal (Some card) ->
        card !! "front" = Some (JStr (lit "casa"))
        /\ card !! "back" = Some (JStr (lit "Haus"))).
Proof.
  assert (Hc : raw_abc <> JNull) by discriminate.
  split; [exact Hc |]. split; [reflexivity |]. split; [reflexivity |].
  destruct (proj1 (sanitizeCard_text_fields T1 fresh_id raw_abc Hc)) as (Hnull & Hcard & _).
  split; [exact Hnull | exact Hcard].
Defined.

(** Scenario E of the specification. *)
Example scenario_E :
  sanitized (sanitizeCard T0 fresh_id
      (JObj {[ "front" := JStr (lit "= foo");
               "back" := JArr [JStr (lit "a"); JStr (lit "b")] ]})) !! "front"
  = Some (JStr (lit "foo"))
  /\ sanitized (sanitizeCard T0 fresh_id
      (JObj {[ "front" := JStr (lit "= foo");
               "back" := JArr [JStr (lit "a"); JStr (lit "b")] ]})) !! "back"
     = Some (JStr (lit "a / b")).
Proof. split; reflexivity. Qed.


(** The card stored by that upsert: the fields of the item, and with them
    the time of the second post. *)
Example upsert_takes_item_fields :
  field_at (upsert_mutator [item_abc] [card_note]) 0 "next_review" = Some (JStr T1)
  /\ field_at (upsert_mutator [item_abc] [card_note]) 0 "front" = Some (JStr (lit "casa"))
  /\ field_at (upsert_mutator [item_abc] [card_note]) 0 "note"
     = Some (JStr (lit "irregular")).
Proof. repeat split; reflexivity. Qed.

(** An item with an id of its own is appended. *)
Example upsert_appends_new_id :
  length (upsert_mutator [<["id" := JStr (lit "xyz")]> item_abc] [card_abc]) = 2%nat
  /\ field_at (upsert_mutator [<["id" := JStr (lit "xyz")]> item_abc] [card_abc])
              0 "created_at" = Some (JStr T0)
  /\ field_at (upsert_mutator [<["id" := JStr (lit "xyz")]> item_abc] [card_abc])
              1 "id" = Some (JStr (lit "xyz")).
Proof. repeat split; reflexivity. Qed.

(** C8, counterexample.  The file does not parse and the recovery write
    fails: [safeRead] throws, and so does [GET /api/cards]; the file is
    still corrupt. *)
Lemma recovery_write_failure_reaches_caller :
  disk (World Corrupt []) = Corrupt
  /\ safeRead false (World Corrupt [])
     = (Throw IOError, World Corrupt [read_cards_parse_failed])
  /\ get_cards false (World Corrupt [])
     = (Throw IOError, World Corrupt [read_cards_parse_failed])
  /\ (get_cards false (World Corrupt [])).1 <> Normal (RCards [] 0)
  /\ disk (get_cards false (World Corrupt [])).2 <> Stored [].
Proof. repeat split; discriminate. Qed.

(** C8, witness, and scenario F of the specification. *)
Lemma corrupt_store_recovery_witness :
  disk (World Corrupt []) = Corrupt
  /\ safeRead true (World Corrupt [])
     = (Normal [], World (Stored []) [read_cards_parse_failed])
  /\ get_cards true (World Corrupt [])
     = (Normal (RCards [] 0), World (Stored []) [read_cards_parse_failed])
  /\ disk (get_cards true (World Corrupt [])).2 = Stored [].
Proof.
  split; [reflexivity |].
  exact (proj1 (proj2 (corrupt_store_recovery true (World Corrupt []) eq_refl)) eq_refl).
Defined.


(** The store of scenario C is left as it was. *)
Example scenario_C_store :
  json_cards [card_abc] = [card_abc].
Proof. reflexivity. Qed.

(** A PUT whose [front] is the object [{"toString": 0}] throws before it
    enqueues anything, whether or not a card has the id. *)
Example put_unconvertible_front_throws :
  normalizePatch patch_unconvertible = Throw TypeError
  /\ put_card secret true true bearer (lit "zzz") patch_unconvertible world_abc
     = (Throw TypeError, world_abc)
  /\ put_card secret true true bearer (lit "abc") patch_unconvertible world_abc
     = (Throw TypeError, world_abc).
Proof. repeat split; reflexivity. Qed.

(** C10, witness: no environment variable, and a bearer token all the same. *)
Lemma unconfigured_server_is_read_only_witness :
  (@None jsstring = None \/ @None jsstring = Some [])
  /\ requireToken (write_token_of_env None) bearer = None
  /\ post_cards (write_token_of_env None) (fun _ => T1) (fun _ => fresh_id) true true true
                bearer raw_abc (World (Stored [card_abc]) [])
     = (Normal (RError 401 "unauthorized"), World (Stored [card_abc]) [])
  /\ put_card (write_token_of_env None) true true bearer (lit "abc") patch_interval
              (World (Stored [card_abc]) [])
     = (Normal (RError 401 "unauthorized"), World (Stored [card_abc]) [])
  /\ delete_card (write_token_of_env None) true true bearer (lit "abc")
                 (World (Stored [card_abc]) [])
     = (RError 401 "unauthorized", World (Stored [card_abc]) []).
Proof.
  split; [by left |].
  exact (unconfigured_server_is_read_only None bearer (fun _ => T1) (fun _ => fresh_id)
           true true true (lit "abc") patch_interval (World (Stored [card_abc]) [])
           (or_introl eq_refl)).
Defined.

(** An empty bearer token does not match the empty secret either. *)
Example empty_bearer_refused :
  requireToken (write_token_of_env (Some [])) (Some (lit "Bearer ")) = None.
Proof. reflexivity. Qed.

(** Scenario A of the specification (front ["maçã"], back ["Apfel"]). *)
Example scenario_A :
  (post_cards secret (fun _ => T0) (fun _ => fresh_id) true true true bearer
     (JObj {[ "front" := JStr [109; 97; 231; 227]; "back" := JStr (lit "Apfel") ]})
     (World (Stored []) [])).1 = Normal (RAdded 1 1)
  /\ (get_cards true
        (post_cards secret (fun _ => T0) (fun _ => fresh_id) true true true bearer
        (JObj {[ "front" := JStr [109; 97; 231; 227]; "back" := JStr (lit "Apfel") ]})
        (World (Stored []) [])).2).1
     = Normal (RCards [ {[ "id" := JStr fresh_id; "front" := JStr [109; 97; 231; 227];
                   "back" := JStr (lit "Apfel"); "lang_from" := JStr (lit "pt");
                   "lang_to" := JStr (lit "de"); "tags" := JArr [];
                   "ease" := JNum (Half 5); "interval" := JNum (Half 0);
                   "next_review" := JStr T0; "lapses" := JNum (Half 0);
                   "created_at" := JStr T0 ]} ] 1).
Proof. split; reflexivity. Qed.

(** Scenario B of the specification. *)
Example scenario_B :
  put_card secret true true bearer (lit "abc") patch_interval
           (World (Stored [card_abc]) [])
  = (Normal (ROkId (lit "abc")),
     World (Stored [<["interval" := JNum (Half 6)]> card_abc]) []).
Proof. reflexivity. Qed.

(** Scenario D of the specification. *)
Example scenario_D :
  post_cards secret (fun _ => T1) (fun _ => fresh_id) true true true bearer
    (JObj {[ "front" := JStr []; "back" := JStr (lit "x") ]})
    (World (Stored [card_abc]) [])
  = (Normal (RError 400 "invalid_payload"), World (Stored [card_abc]) []).
Proof. reflexivity. Qed.

(** A [null] among the posted items makes [sanitizeCard] throw. *)
Example post_null_item_throws :
  post_cards secret (fun _ => T1) (fun _ => fresh_id) true true true bearer
    (JArr [raw_abc; JNull]) (World (Stored [card_abc]) [])
  = (Throw TypeError, World (Stored [card_abc]) []).
Proof. reflexivity. Qed.

Lemma run5_reachable : reachable (World (Stored []) []) run5.
Proof.
  eapply reach_step; [eapply reach_step; [eapply reach_step; [eapply reach_step;
    [eapply reach_step; [apply reach_init |] |] |] |] |].
  - exact (step_enqueue run0 failing_mutator).
  - exact (step_enqueue run1 appending_mutator).
  - apply step_unit.
    exact (step_load run2 0%nat failing_mutator true [] (ch_world run2)
             eq_refl I eq_refl).
  - apply step_unit.
    exact (step_apply_throws run3 0%nat failing_mutator [] MutatorError eq_refl eq_refl).
  - apply step_unit.
    exact (step_load run4 1%nat appending_mutator true [] (ch_world run4) eq_refl
             (ex_intro _ (Some MutatorError) eq_refl) eq_refl).
Defined.

(** The second unit runs although the first one failed, and its result is
    what the file holds in the end. *)
Example run8_after_failure :
  rtc unit_step run5 run8
  /\ ch_world run8 = World (Stored [card_abc]) [write_failed MutatorError]
  /\ ch_trace run8 = [(0, ALoad); (0, AFail); (1, ALoad); (1, AApply);
                      (1, AWriteTmp); (1, ARename)]%nat.
Proof.
  split; [| split; reflexivity].
  eapply rtc_l; [exact (step_apply run5 1%nat appending_mutator [] [card_abc]
                          eq_refl eq_refl) |].
  eapply rtc_l; [exact (step_write_tmp run6 1%nat appending_mutator [card_abc] eq_refl) |].
  eapply rtc_l; [exact (step_rename run7 1%nat appending_mutator [card_abc] eq_refl) |].
  apply rtc_refl.
Qed.

(** C5, witness: the chain after the first unit failed and the second loaded. *)
Lemma write_chain_fifo_and_isolated_witness :
  reachable (World (Stored []) []) run5
  /\ trace_fifo (ch_trace run5)
  /\ (forall i l j e1 e2 e3, (i < l)%nat -> (l < j)%nat ->
        ch_trace run5 !! i = Some e1 -> ch_trace run5 !! l = Some e2 ->
        ch_trace run5 !! j = Some e3 -> e1.1 = e3.1 -> e2.1 = e1.1)
  /\ (forall i j si sj, stage_of run5 i = Some si -> stage_of run5 j = Some sj ->
        in_flight si = true -> in_flight sj = true -> i = j)
  /\ (forall k e, stage_of run5 k = Some (Settled (Some e)) ->
        write_failed e ∈ console (ch_world run5))
  /\ (forall k o, stage_of run5 k = Some (Settled o) -> (k, ALoad) ∈ ch_trace run5)
  /\ (forall k st, stage_of run5 k = Some st -> is_settled st = false ->
        exists c', unit_step run5 c')
  /\ (exists c', rtc unit_step run5 c' /\ reachable (World (Stored []) []) c'
        /\ forall k, (k < length (ch_units run5))%nat ->
             exists o, stage_of c' k = Some (Settled o)
                       /\ (k, ALoad) ∈ ch_trace c').
Proof.
  split; [exact run5_reachable |].
  exact (write_chain_fifo_and_isolated (World (Stored []) []) run5 run5_reachable).
Defined.

(** ** Concrete runs for the further properties *)

(** X2, witness: a bearer token that is not the secret. *)
Lemma refused_request_changes_nothing_witness :
  (secret = [] \/ wrong_bearer <> Some (lit "Bearer " ++ secret))
  /\ post_cards secret (fun _ => T1) (fun _ => fresh_id) true true true wrong_bearer
                raw_abc world_abc
     = (Normal (RError 401 "unauthorized"), world_abc)
  /\ put_card secret true true wrong_bearer (lit "abc") patch_interval world_abc
     = (Normal (RError 401 "unauthorized"), world_abc)
  /\ delete_card secret true true wrong_bearer (lit "abc") world_abc
     = (RError 401 "unauthorized", world_abc).
Proof.
  assert (Hbad : secret = [] \/ wrong_bearer <> Some (lit "Bearer " ++ secret)).
  { right. intros Heq.
    apply (f_equal (fun o : option jsstring => default [] o !! 7%nat)) in Heq.
    discriminate Heq. }
  split; [exact Hbad |].
  exact (refused_request_changes_nothing secret wrong_bearer (fun _ => T1)
           (fun _ => fresh_id) true true true (lit "abc") raw_abc world_abc Hbad).
Defined.

Lemma item_abc_sanitized : sanitizeCard T1 fresh_id raw_abc = Normal (Some item_abc).
Proof. reflexivity. Defined.

(** X5, witness. *)
Lemma sanitizeCard_keys_witness :
  sanitizeCard T1 fresh_id raw_abc = Normal (Some item_abc)
  /\ dom item_abc = card_keys
  /\ forall k, k ∉ card_keys -> item_abc !! k = None.
Proof.
  split; [exact item_abc_sanitized |].
  exact (sanitizeCard_keys T1 fresh_id raw_abc item_abc item_abc_sanitized).
Defined.

(** X6, witness. *)
Lemma sanitizeCard_tags_witness :
  sanitizeCard T1 fresh_id raw_abc = Normal (Some item_abc)
  /\ exists l, item_abc !! "tags" = Some (JArr l) /\ (length l <= 10)%nat
       /\ (forall l0, prop raw_abc "tags" = Some (JArr l0) -> l = take 10 l0)
       /\ ((forall l0, prop raw_abc "tags" <> Some (JArr l0)) -> l = []).
Proof.
  split; [exact item_abc_sanitized |].
  exact (sanitizeCard_tags T1 fresh_id raw_abc item_abc item_abc_sanitized).
Defined.

(** X7, witness. *)
Lemma sanitizeCard_id_witness :
  fresh_id <> []
  /\ sanitizeCard T1 fresh_id raw_abc = Normal (Some item_abc)
  /\ exists v, item_abc !! "id" = Some v /\ truthy (Some v) = true
       /\ (truthy (prop raw_abc "id") = true -> prop raw_abc "id" = Some v)
       /\ (truthy (prop raw_abc "id") = false -> v = JStr fresh_id).
Proof.
  assert (Hf : fresh_id <> []) by discriminate.
  split; [exact Hf |]. split; [exact item_abc_sanitized |].
  exact (sanitizeCard_id T1 fresh_id raw_abc item_abc Hf item_abc_sanitized).
Defined.

(** X8, witness. *)
Lemma sanitizeCard_texts_trimmed_witness :
  sanitizeCard T1 fresh_id raw_abc = Normal (Some item_abc)
  /\ exists f b,
       item_abc !! "front" = Some (JStr f) /\ item_abc !! "back" = Some (JStr b)
       /\ f <> [] /\ b <> []
       /\ (forall c r, f = c :: r -> is_ws c = false)
       /\ (forall c r, f = r ++ [c] -> is_ws c = false)
       /\ ((forall l, backIn raw_abc <> Some (JArr l)) ->
           (forall c r, b = c :: r -> is_ws c = false)
           /\ (forall c r, b = r ++ [c] -> is_ws c = false)).
Proof.
  split; [exact item_abc_sanitized |].
  exact (sanitizeCard_texts_trimmed T1 fresh_id raw_abc item_abc item_abc_sanitized).
Defined.

Lemma secret_admitted : requireToken secret bearer <> None.
Proof. change (Some secret <> None). discriminate. Defined.

(** X10, witness: a valid item followed by one whose [ease] is the object
    [{"toString": 0}]. *)
Lemma post_throwing_item_throws_witness :
  requireToken secret bearer <> None
  /\ (exists c, c ∈ incoming_of (JArr [raw_abc; raw_ease_unconvertible])
                /\ throws_on c = true)
  /\ (forall now fresh c e,
        sanitizeCard now fresh c = Throw e <-> throws_on c = true /\ e = TypeError)
  /\ throws_on JNull = true
  /\ post_cards secret (fun _ => T1) (fun _ => fresh_id) true true true bearer
                (JArr [raw_abc; raw_ease_unconvertible]) world_abc
     = (Throw TypeError, world_abc).
Proof.
  assert (Hin : exists c, c ∈ incoming_of (JArr [raw_abc; raw_ease_unconvertible])
                          /\ throws_on c = true).
  { exists raw_ease_unconvertible.
    split; [apply list_elem_of_further, list_elem_of_here | reflexivity]. }
  split; [exact secret_admitted |]. split; [exact Hin |].
  exact (post_throwing_item_throws secret (fun _ => T1) (fun _ => fresh_id) true true
           true bearer (JArr [raw_abc; raw_ease_unconvertible]) world_abc
           secret_admitted Hin).
Defined.

(** The items on which [sanitizeCard] throws, among the samples. *)
Example throws_on_samples :
  throws_on JNull = true
  /\ throws_on raw_back_unconvertible = true
  /\ throws_on raw_ease_unconvertible = true
  /\ throws_on (JObj {[ "front" := JArr [unconvertible]; "back" := JStr (lit "b") ]})
     = true
  /\ throws_on (JObj {[ "front" := JStr []; "back" := JStr (lit "b");
                        "ease" := unconvertible ]}) = false
  /\ throws_on (JObj {[ "front" := JObj ∅; "back" := JStr (lit "b") ]}) = false
  /\ throws_on raw_abc = false.
Proof. repeat split; reflexivity. Qed.

(** X11, witness: a front that is only ['='] and a space, on a corrupt file. *)
Lemma post_nothing_valid_witness :
  requireToken secret bearer <> None
  /\ (forall c, c ∈ incoming_of body_invalid -> throws_on c = false /\ accepts c = false)
  /\ post_cards secret (fun _ => T1) (fun _ => fresh_id) true true true bearer
                body_invalid (World Corrupt [])
     = (Normal (RError 400 "invalid_payload"), World Corrupt []).
Proof.
  assert (Hall : forall c, c ∈ incoming_of body_invalid ->
                           throws_on c = false /\ accepts c = false).
  { intros c Hc. apply list_elem_of_singleton in Hc as ->. by split. }
  split; [exact secret_admitted |]. split; [exact Hall |].
  exact (post_nothing_valid secret (fun _ => T1) (fun _ => fresh_id) true true true
           bearer body_invalid (World Corrupt []) secret_admitted Hall).
Defined.

(** X12, witness: one valid and one invalid item. *)
Lemma post_added_counts_valid_items_witness :
  requireToken secret bearer <> None
  /\ (forall c, c ∈ incoming_of (JArr [raw_abc; body_invalid]) -> throws_on c = false)
  /\ (exists c, c ∈ incoming_of (JArr [raw_abc; body_invalid]) /\ accepts c = true)
  /\ (disk world_abc = Corrupt -> true = true \/ true = true)
  /\ exists cards,
       disk (post_cards secret (fun _ => T1) (fun _ => fresh_id) true true true bearer
               (JArr [raw_abc; body_invalid]) world_abc).2 = Stored cards
       /\ (post_cards secret (fun _ => T1) (fun _ => fresh_id) true true true bearer
             (JArr [raw_abc; body_invalid]) world_abc).1
          = Normal (RAdded
                      (length (List.filter accepts
                                 (incoming_of (JArr [raw_abc; body_invalid]))))
                      (length cards)).
Proof.
  assert (Hno : forall c, c ∈ incoming_of (JArr [raw_abc; body_invalid]) ->
                          throws_on c = false).
  { intros c Hin. apply elem_of_cons in Hin as [-> | Hin]; [reflexivity |].
    apply list_elem_of_singleton in Hin as ->. reflexivity. }
  assert (Hex : exists c, c ∈ incoming_of (JArr [raw_abc; body_invalid])
                          /\ accepts c = true).
  { exists raw_abc. split; [apply list_elem_of_here | reflexivity]. }
  assert (Hheal : disk world_abc = Corrupt -> true = true \/ true = true)
    by (intros _; by left).
  split; [exact secret_admitted |]. split; [exact Hno |]. split; [exact Hex |].
  split; [exact Hheal |].
  exact (proj1 (post_added_counts_valid_items secret (fun _ => T1) (fun _ => fresh_id)
                  true true true bearer (JArr [raw_abc; body_invalid]) world_abc
                  secret_admitted Hno Hex) Hheal).
Defined.

(** The counts of that request. *)
Example post_mixed_batch :
  (post_cards secret (fun _ => T1) (fun _ => fresh_id) true true true bearer
     (JArr [raw_abc; body_invalid]) world_abc).1 = Normal (RAdded 1 1).
Proof. reflexivity. Qed.

(** A POST on a file that does not parse, both recovery writes failing:
    the unit fails at its read, and the read after it throws. *)
Example post_on_corrupt_file_throws :
  post_cards secret (fun _ => T1) (fun _ => fresh_id) true false false bearer raw_abc
             (World Corrupt [])
  = (Throw IOError,
     World Corrupt [read_cards_parse_failed; write_failed IOError;
                    read_cards_parse_failed]).
Proof. reflexivity. Qed.

(** Two items of one batch with the same new id are both appended. *)
Example upsert_same_new_id_twice :
  length (upsert_mutator [item_xyz; item_xyz] [card_abc]) = 3%nat.
Proof. reflexivity. Qed.

(** X14, witness. *)
Lemma upsert_leaves_other_cards_witness :
  [card_abc] !! 0%nat = Some card_abc
  /\ (forall n, n ∈ [item_xyz] ->
                same_value_zero (card_abc !! "id") (n !! "id") = false)
  /\ upsert_mutator [item_xyz] [card_abc] !! 0%nat = Some card_abc.
Proof.
  assert (Hother : forall n, n ∈ [item_xyz] ->
                     same_value_zero (card_abc !! "id") (n !! "id") = false).
  { intros n Hn. apply list_elem_of_singleton in Hn as ->. reflexivity. }
  split; [reflexivity |]. split; [exact Hother |].
  exact (upsert_leaves_other_cards [item_xyz] [card_abc] 0%nat card_abc eq_refl Hother).
Defined.

(** X15, witness. *)
Lemma upsert_keeps_ids_in_place_witness :
  [card_abc] !! 0%nat = Some card_abc
  /\ exists c', upsert_mutator [item_abc; item_xyz] [card_abc] !! 0%nat = Some c'
                /\ c' !! "id" = card_abc !! "id".
Proof.
  split; [reflexivity |].
  exact (upsert_keeps_ids_in_place [item_abc; item_xyz] [card_abc] 0%nat card_abc
           eq_refl).
Defined.

(** X16, witness: the property [note] is not one of the eleven. *)
Lemma upsert_keeps_extra_fields_witness :
  (forall n, n ∈ [item_abc] ->
             exists now fresh raw, sanitizeCard now fresh raw = Normal (Some n))
  /\ [card_note] !! 0%nat = Some card_note
  /\ ("note" ∉ card_keys)
  /\ exists c', upsert_mutator [item_abc] [card_note] !! 0%nat = Some c'
                /\ c' !! "note" = card_note !! "note".
Proof.
  assert (Hsan : forall n, n ∈ [item_abc] ->
            exists now fresh raw, sanitizeCard now fresh raw = Normal (Some n)).
  { intros n Hn. apply list_elem_of_singleton in Hn as ->.
    exists T1, fresh_id, raw_abc. exact item_abc_sanitized. }
  assert (Hk : "note" ∉ card_keys) by (apply (bool_decide_unpack _); exact I).
  split; [exact Hsan |]. split; [reflexivity |]. split; [exact Hk |].
  exact (upsert_keeps_extra_fields [item_abc] [card_note] 0%nat card_note "note"
           Hsan eq_refl Hk).
Defined.

Lemma patch_interval_normalized :
  normalizePatch patch_interval = Normal {[ "interval" := JNum (Half 6) ]}.
Proof. reflexivity. Defined.

(** X19, witness: the field [interval] of the patched card. *)
Lemma mergePatch_fields_witness :
  normalizePatch patch_interval = Normal {[ "interval" := JNum (Half 6) ]}
  /\ Normal (mergePatch card_abc {[ "interval" := JNum (Half 6) ]} !! "interval")
     = Normal (Some (JNum (Half 6))).
Proof.
  split; [exact patch_interval_normalized |].
  exact (mergePatch_fields card_abc patch_interval {[ "interval" := JNum (Half 6) ]}
           "interval" patch_interval_normalized).
Defined.





(** X23, witness. *)
Lemma delete_then_not_found_witness :
  requireToken secret bearer <> None
  /\ (delete_card secret true true bearer (lit "abc")
        (delete_card secret true true bearer (lit "abc") world_abc).2).1
     = RError 404 "not_found"
  /\ (put_card secret true true bearer (lit "abc") patch_interval
        (delete_card secret true true bearer (lit "abc") world_abc).2).1
     = Normal (RError 404 "not_found").
Proof.
  split; [exact secret_admitted |].
  exact (delete_then_not_found secret bearer true true true (lit "abc") patch_interval
           world_abc secret_admitted).
Defined.



Example run8_content : disk (ch_world run8) = Stored [card_abc].
Proof. reflexivity. Qed.

(** On a file that does not parse at the start a saved write can be lost:
    a handler reads the file, the unit heals it, appends [card_abc] and
    saves, and then the recovery write of the handler's read lands.  The
    unit is settled without a failure and the file holds no card. *)
Example recovery_write_loses_saved_write :
  reachable (World Corrupt []) lost7
  /\ stage_of lost7 0 = Some (Settled None)
  /\ replay (ch_units lost7) [] = [card_abc]
  /\ disk (ch_world lost7) = Stored []
  /\ console (ch_world lost7) = [read_cards_parse_failed; read_cards_parse_failed].
Proof.
  split; [| repeat split; reflexivity].
  eapply reach_step; [eapply reach_step; [eapply reach_step; [eapply reach_step;
    [eapply reach_step; [eapply reach_step; [eapply reach_step;
      [apply reach_init |] |] |] |] |] |] |].
  - exact (step_enqueue lost0 appending_mutator).
  - exact (step_reader_finds_corrupt lost1 eq_refl).
  - apply step_unit.
    exact (step_load lost2 0%nat appending_mutator true []
             (write_file [] (log read_cards_parse_failed (ch_world lost2)))
             eq_refl I eq_refl).
  - apply step_unit.
    exact (step_apply lost3 0%nat appending_mutator [] [card_abc] eq_refl eq_refl).
  - apply step_unit.
    exact (step_write_tmp lost4 0%nat appending_mutator [card_abc] eq_refl).
  - apply step_unit.
    exact (step_rename lost5 0%nat appending_mutator [card_abc] eq_refl).
  - exact (step_recovery_write lost6 0%nat eq_refl).
Qed.

Lemma run5_to_run8 : unit_steps 3 run5 run8.
Proof.
  exists run6. split;
    [exact (step_apply run5 1%nat appending_mutator [] [card_abc] eq_refl eq_refl) |].
  exists run7. split;
    [exact (step_write_tmp run6 1%nat appending_mutator [card_abc] eq_refl) |].
  exists run8. split;
    [exact (step_rename run7 1%nat appending_mutator [card_abc] eq_refl) |].
  reflexivity.
Defined.

(** X25, witness. *)
Lemma unit_steps_bounded_witness :
  unit_steps 3 run5 run8 /\ (3 <= 4 * length (ch_units run5))%nat.
Proof.
  split; [exact run5_to_run8 |].
  exact (unit_steps_bounded 3 run5 run8 run5_to_run8).
Defined.

Lemma card_abc_texts : Forall texts_nonempty [card_abc].
Proof.
  apply Forall_singleton. exists (lit "casa"), (lit "Haus").
  repeat split; done.
Defined.

(** X27, witness. *)
Lemma post_keeps_texts_nonempty_witness :
  disk world_abc = Stored [card_abc]
  /\ Forall texts_nonempty [card_abc]
  /\ exists cards',
       disk (post_cards secret (fun _ => T1) (fun _ => fresh_id) true true true bearer
               raw_abc world_abc).2 = Stored cards'
       /\ Forall texts_nonempty cards'.
Proof.
  split; [reflexivity |]. split; [exact card_abc_texts |].
  exact (post_keeps_texts_nonempty secret (fun _ => T1) (fun _ => fresh_id) true true
           true bearer raw_abc world_abc [card_abc] eq_refl card_abc_texts).
Defined.
